(** * The selection tree of gpx.studio (file-list/Selection.ts)

    A shallow embedding of [SelectionTreeType] and of the functions built on
    it ([selectItem], [selectAll], [applyToOrderedSelectedItemsFromFile]),
    followed by the properties of the specification that concern them.

    Conventions of the embedding.
    - A method of [SelectionTreeType] takes the receiver [this] as its last
      argument.  A method that assigns to fields returns the receiver after
      the call.  The three queries [has], [hasAnyParent] and [hasAnyChildren]
      return the receiver next to their answer: a call on [this.children[id]]
      hands the callee a reference it could write through, so the embedding
      stores back what the callee leaves, and the absence of writes is a
      theorem about the code, not a fact of typing.
    - [children] is a JavaScript object used as a dictionary.  It is an
      association list kept in the order in which [for (key in children)]
      enumerates it: canonical array indices first, ascending, then the other
      keys in order of creation.  Keys are strings; a numeric identifier is
      converted to its decimal string, as property access does.  The key
      [__proto__], which JavaScript does not store as an own property, is
      outside the model.
    - [size] is an integer ([Z]).  Identifiers that are numbers in the source
      are array indices, modelled in [N].
    - [_setOrToggle] is the one method whose recursion is not structural in
      the receiver (it creates the child it descends into); it takes the depth
      of the call stack it may use, and [None] stands for running out of it.
      [set] and [toggle] call it with [call_budget], which is proved to be
      enough for every tree and every item. *)

From Stdlib Require Import List String Ascii Bool ZArith NArith Lia.
From Stdlib Require Import Decimal DecimalString DecimalN.
Import ListNotations.
Local Open Scope string_scope.
Local Open Scope Z_scope.
Set Warnings "-register-all".

(** ** Small helpers *)

(** A parameter with a default value: [undefined] takes the default. *)
Definition with_default {A : Type} (d : A) (o : option A) : A :=
  match o with
  | Some a => a
  | None => d
  end.

Definition bind {A B : Type} (o : option A) (k : A -> option B) : option B :=
  match o with
  | Some a => k a
  | None => None
  end.

Notation "x <- e ;; k" := (bind e (fun x => k))
  (at level 61, e at next level, right associativity).

(** ** FileList: levels, identifiers and items *)

Module FileList.

(** Modelled from the spec: FileList.ts, which declares [ListLevel], the
    [ListItem] classes and [sortItems], is not among the sources; Selection.ts
    only imports them.  The levels are the enumeration of the spec, section 3,
    in its order (a lower ordinal is closer to the root). *)
Inductive ListLevel : Type :=
  | ROOT
  | FILE
  | TRACK
  | SEGMENT
  | WAYPOINTS
  | WAYPOINT.

(** The ordinal of a level: TypeScript compares the members of a numeric
    enumeration as numbers. *)
Definition ordinal (l : ListLevel) : Z :=
  match l with
  | ROOT => 0
  | FILE => 1
  | TRACK => 2
  | SEGMENT => 3
  | WAYPOINTS => 4
  | WAYPOINT => 5
  end.

(** [a === b], [a <= b], [a < b], [a >= b], [a > b] on levels. *)
Definition level_eqb (a b : ListLevel) : bool := ordinal a =? ordinal b.
Definition level_leb (a b : ListLevel) : bool := ordinal a <=? ordinal b.
Definition level_ltb (a b : ListLevel) : bool := ordinal a <? ordinal b.
Definition level_geb (a b : ListLevel) : bool := ordinal a >=? ordinal b.
Definition level_gtb (a b : ListLevel) : bool := ordinal a >? ordinal b.

(** An identifier, [string | number] in the source. *)
Inductive Id : Type :=
  | IdStr (s : string)
  | IdNum (n : N).

(** Strict equality [===] of two identifiers: a number never equals a string. *)
Definition Id_eqb (a b : Id) : bool :=
  match a, b with
  | IdStr s, IdStr s' => String.eqb s s'
  | IdNum n, IdNum n' => N.eqb n n'
  | _, _ => false
  end.

(** Modelled from the spec: the six classes of items, one constructor each,
    carrying the identifiers valid at its level (spec, sections 3 and 9).  The
    arguments are those of the [new] expressions of Selection.ts:
    [new ListFileItem(fileId)], [new ListTrackItem(fileId, trackId)],
    [new ListTrackSegmentItem(fileId, trackIndex, segmentId)],
    [new ListWaypointItem(fileId, waypointId)], [new ListRootItem()]. *)
Inductive ListItem : Type :=
  | ListRootItem
  | ListFileItem (fileId : string)
  | ListTrackItem (fileId : string) (trackIndex : N)
  | ListTrackSegmentItem (fileId : string) (trackIndex : N) (segmentIndex : N)
  | ListWaypointsItem (fileId : string)
  | ListWaypointItem (fileId : string) (waypointIndex : N).

(** Modelled from the spec: the field [level] of an item. *)
Definition level (it : ListItem) : ListLevel :=
  match it with
  | ListRootItem => ROOT
  | ListFileItem _ => FILE
  | ListTrackItem _ _ => TRACK
  | ListTrackSegmentItem _ _ _ => SEGMENT
  | ListWaypointsItem _ => WAYPOINTS
  | ListWaypointItem _ _ => WAYPOINT
  end.

(** Modelled from the spec: [getFileId()], the identifier of the file of the
    item, undefined for the root item (spec, section 4.1). *)
Definition getFileId (it : ListItem) : option string :=
  match it with
  | ListRootItem => None
  | ListFileItem f => Some f
  | ListTrackItem f _ => Some f
  | ListTrackSegmentItem f _ _ => Some f
  | ListWaypointsItem f => Some f
  | ListWaypointItem f _ => Some f
  end.

(** The identifier under which a file holds its group of waypoints. *)
Definition waypoints_id : Id := IdStr "waypoints".

(** Modelled from the spec: [getIdAtLevel(l)], read the way Selection.ts uses
    it.  There [id = item.getIdAtLevel(this.item.level)] is the key of
    [this.children] and the argument of [this.item.extend]: it is the
    identifier that leads from a node of level [l] to the child on the path of
    the item, and it is undefined when the item has no component below level
    [l].  The group of waypoints of a file lies under the file, beside its
    tracks, and a waypoint lies under that group. *)
Definition getIdAtLevel (it : ListItem) (l : ListLevel) : option Id :=
  match it, l with
  | ListFileItem f, ROOT => Some (IdStr f)
  | ListTrackItem f _, ROOT => Some (IdStr f)
  | ListTrackItem _ t, FILE => Some (IdNum t)
  | ListTrackSegmentItem f _ _, ROOT => Some (IdStr f)
  | ListTrackSegmentItem _ t _, FILE => Some (IdNum t)
  | ListTrackSegmentItem _ _ s, TRACK => Some (IdNum s)
  | ListWaypointsItem f, ROOT => Some (IdStr f)
  | ListWaypointsItem _, FILE => Some waypoints_id
  | ListWaypointItem f _, ROOT => Some (IdStr f)
  | ListWaypointItem _ _, FILE => Some waypoints_id
  | ListWaypointItem _ w, WAYPOINTS => Some (IdNum w)
  | _, _ => None
  end.

(** Modelled from the spec: [extend(id)], the item one step deeper with [id]
    as its last component, the components of the receiver unchanged.  The spec
    leaves the call undefined below the deepest level; [None] stands for that
    and for an identifier of the wrong kind. *)
Definition extend (it : ListItem) (id : Id) : option ListItem :=
  match it, id with
  | ListRootItem, IdStr f => Some (ListFileItem f)
  | ListFileItem f, IdNum t => Some (ListTrackItem f t)
  | ListFileItem f, IdStr s =>
      if String.eqb s "waypoints" then Some (ListWaypointsItem f) else None
  | ListTrackItem f t, IdNum s => Some (ListTrackSegmentItem f t s)
  | ListWaypointsItem f, IdNum w => Some (ListWaypointItem f w)
  | _, _ => None
  end.

(** [item instanceof ListFileItem || ... || item instanceof ListWaypointItem]:
    the test of [applyToOrderedSelectedItemsFromFile], true of the five
    classes it names. *)
Definition is_file_level_item (it : ListItem) : bool :=
  match it with
  | ListRootItem => false
  | _ => true
  end.

End FileList.

Export FileList.

(** ** A JavaScript object used as a dictionary *)

Module JsObject.

(** ToPropertyKey: a string is its own key, a number its decimal string. *)
Definition key_of (id : Id) : string :=
  match id with
  | IdStr s => s
  | IdNum n => NilZero.string_of_uint (N.to_uint n)
  end.

(** A key is an array index when it is the canonical decimal string of an
    integer below 2^32 - 1; such keys are enumerated first. *)
Definition array_index (k : string) : option N :=
  match NilZero.uint_of_string k with
  | Some d =>
      let n := N.of_uint d in
      if (String.eqb (NilZero.string_of_uint (N.to_uint n)) k
          && N.ltb n 4294967295)%bool
      then Some n else None
  | None => None
  end.

(** Whether a new key [k] is enumerated before an existing key [k']. *)
Definition enumerated_before (k k' : string) : bool :=
  match array_index k, array_index k' with
  | Some n, Some n' => N.ltb n n'
  | Some _, None => true
  | None, _ => false
  end.

Section Dictionary.
Context {T : Type}.

(** [o.hasOwnProperty(k)] *)
Fixpoint hasOwnProperty (o : list (string * T)) (k : string) : bool :=
  match o with
  | [] => false
  | (k', _) :: o' => if String.eqb k' k then true else hasOwnProperty o' k
  end.

(** [o[k]] for an own property. *)
Fixpoint get (o : list (string * T)) (k : string) : option T :=
  match o with
  | [] => None
  | (k', v) :: o' => if String.eqb k' k then Some v else get o' k
  end.

(** Creation of the property [k]: at its place in enumeration order. *)
Fixpoint create (o : list (string * T)) (k : string) (v : T)
  : list (string * T) :=
  match o with
  | [] => [(k, v)]
  | (k', v') :: o' =>
      if enumerated_before k k' then (k, v) :: (k', v') :: o'
      else (k', v') :: create o' k v
  end.

(** Assignment to the existing property [k]: its place is kept. *)
Fixpoint assign (o : list (string * T)) (k : string) (v : T)
  : list (string * T) :=
  match o with
  | [] => []
  | (k', v') :: o' =>
      if String.eqb k' k then (k', v) :: o' else (k', v') :: assign o' k v
  end.

(** [o[k] = v] *)
Definition put (o : list (string * T)) (k : string) (v : T)
  : list (string * T) :=
  if hasOwnProperty o k then assign o k v else create o k v.

(** [delete o[k]] *)
Definition delete (o : list (string * T)) (k : string) : list (string * T) :=
  filter (fun kv => negb (String.eqb (fst kv) k)) o.

(** A method call [o[k].m(...)] on an own property: the callee [m] answers
    and leaves the object it was called on in some state, which stays under
    the key [k].  [None] when [o] has no own property [k]. *)
Fixpoint call {R : Type} (m : T -> R * T) (o : list (string * T))
  (k : string) : option (R * list (string * T)) :=
  match o with
  | [] => None
  | (k', v) :: o' =>
      if String.eqb k' k then
        let (r, v') := m v in Some (r, (k', v') :: o')
      else
        match call m o' k with
        | Some (r, o'') => Some (r, (k', v) :: o'')
        | None => None
        end
  end.

(** [for (key in o) if (!skip(key)) if (o[key].m(...)) return true;] then
    [false] when the loop ends: the answer, and the object after the calls
    that were made. *)
Fixpoint call_until_true (m : T -> bool * T) (skip : string -> bool)
  (o : list (string * T)) : bool * list (string * T) :=
  match o with
  | [] => (false, [])
  | (k, v) :: o' =>
      if skip k then
        let (r, o'') := call_until_true m skip o' in (r, (k, v) :: o'')
      else
        let (r, v') := m v in
        if r then (true, (k, v') :: o')
        else
          let (r', o'') := call_until_true m skip o' in
          (r', (k, v') :: o'')
  end.

End Dictionary.

End JsObject.

(** ** Selection.ts *)

Module Selection.

Import JsObject.

(** class SelectionTreeType: the fields [item], [selected], [children] and
    [size]. *)
Inductive SelectionTreeType : Type :=
  mkSelectionTree {
    item : ListItem;
    selected : bool;
    children : list (string * SelectionTreeType);
    size : Z
  }.

(** [constructor(item)]: not selected, no children, [size] 0. *)
Definition new_SelectionTreeType (it : ListItem) : SelectionTreeType :=
  mkSelectionTree it false [] 0.

(** Field assignments. *)
Definition set_selected (this : SelectionTreeType) (b : bool) :=
  mkSelectionTree (item this) b (children this) (size this).
Definition set_children (this : SelectionTreeType)
  (c : list (string * SelectionTreeType)) :=
  mkSelectionTree (item this) (selected this) c (size this).
Definition set_size (this : SelectionTreeType) (z : Z) :=
  mkSelectionTree (item this) (selected this) (children this) z.

(** [clear()] *)
Fixpoint clear (this : SelectionTreeType) : SelectionTreeType :=
  mkSelectionTree (item this) false
    (map (fun kv => (fst kv, clear (snd kv))) (children this)) 0.

(** The number of nodes on the longest branch. *)
Fixpoint height (this : SelectionTreeType) : nat :=
  S (fold_right (fun kv h => Nat.max (height (snd kv)) h) 0%nat
       (children this)).

(** [_setOrToggle(item, value?)]; [fuel] is the depth of call stack left. *)
Fixpoint _setOrToggle (fuel : nat) (it : ListItem) (value : option bool)
  (this : SelectionTreeType) : option SelectionTreeType :=
  match fuel with
  | O => None
  | S fuel' =>
      if level_eqb (level it) (level (item this)) then
        let newSelected :=
          match value with
          | None => negb (selected this)
          | Some v => v
          end in
        if Bool.eqb (selected this) newSelected then Some this
        else
          let this := set_selected this newSelected in
          Some (set_size this
                  (size this + (if selected this then 1 else -1)))
      else
        match getIdAtLevel it (level (item this)) with
        | None => Some this
        | Some id =>
            this <-
              (if hasOwnProperty (children this) (key_of id) then Some this
               else
                 child_item <- extend (item this) id ;;
                 Some (set_children this
                         (put (children this) (key_of id)
                            (new_SelectionTreeType child_item)))) ;;
            child <- get (children this) (key_of id) ;;
            let this := set_size this (size this - size child) in
            child <- _setOrToggle fuel' it value child ;;
            let this :=
              set_children this (put (children this) (key_of id) child) in
            Some (set_size this (size this + size child))
        end
  end.

(** Number of levels of the hierarchy: a bound on the nodes a call creates. *)
Definition levels : nat := 6.

(** A depth of call stack that is enough for a call on [this]. *)
Definition call_budget (this : SelectionTreeType) : nat :=
  (height this + levels)%nat.

(** [set(item, value)] *)
Definition set (it : ListItem) (value : bool) (this : SelectionTreeType)
  : option SelectionTreeType :=
  _setOrToggle (call_budget this) it (Some value) this.

(** [toggle(item)] *)
Definition toggle (it : ListItem) (this : SelectionTreeType)
  : option SelectionTreeType :=
  _setOrToggle (call_budget this) it None this.

(** [has(item)] *)
Fixpoint has (it : ListItem) (this : SelectionTreeType)
  : bool * SelectionTreeType :=
  if level_eqb (level it) (level (item this)) then (selected this, this)
  else
    match getIdAtLevel it (level (item this)) with
    | Some id =>
        match call (has it) (children this) (key_of id) with
        | Some (r, c) => (r, set_children this c)
        | None => (false, this)
        end
    | None => (false, this)
    end.

(** [hasAnyParent(item, self = true)] *)
Fixpoint hasAnyParent (it : ListItem) (self : option bool)
  (this : SelectionTreeType) : bool * SelectionTreeType :=
  let self := with_default true self in
  if (selected this && level_leb (level (item this)) (level it)
      && (self || level_ltb (level (item this)) (level it)))%bool
  then (selected this, this)
  else
    match getIdAtLevel it (level (item this)) with
    | Some id =>
        match call (hasAnyParent it (Some self)) (children this) (key_of id)
        with
        | Some (r, c) => (r, set_children this c)
        | None => (false, this)
        end
    | None => (false, this)
    end.

(** [ignoreIds === undefined || ignoreIds.indexOf(id) === -1] *)
Definition not_ignored (ignoreIds : option (list Id)) (id : Id) : bool :=
  match ignoreIds with
  | None => true
  | Some ids => negb (existsb (Id_eqb id) ids)
  end.

(** [hasAnyChildren(item, self = true, ignoreIds?)].  In the loop over the
    children the key is the string that [for .. in] yields. *)
Fixpoint hasAnyChildren (it : ListItem) (self : option bool)
  (ignoreIds : option (list Id)) (this : SelectionTreeType)
  : bool * SelectionTreeType :=
  let self := with_default true self in
  if (selected this && level_geb (level (item this)) (level it)
      && (self || level_gtb (level (item this)) (level it)))%bool
  then (selected this, this)
  else
    match getIdAtLevel it (level (item this)) with
    | Some id =>
        if not_ignored ignoreIds id then
          match
            call (hasAnyChildren it (Some self) ignoreIds) (children this)
              (key_of id)
          with
          | Some (r, c) => (r, set_children this c)
          | None => (false, this)
          end
        else (false, this)
    | None =>
        let (r, c) :=
          call_until_true (hasAnyChildren it (Some self) ignoreIds)
            (fun key => negb (not_ignored ignoreIds (IdStr key)))
            (children this) in
        (r, set_children this c)
    end.

(** [getSelected(selection?)]: the array [selection] is pushed to in place
    and handed down, so it is threaded through the calls. *)
Fixpoint getSelected (selection : option (list ListItem))
  (this : SelectionTreeType) : list ListItem :=
  let selection := with_default [] selection in
  let selection :=
    if selected this then (selection ++ [item this])%list else selection in
  fold_left (fun sel kv => getSelected (Some sel) (snd kv)) (children this)
    selection.

(** [forEach(callback)]: the callback acts on a state of the caller. *)
Fixpoint forEach {St : Type} (callback : ListItem -> St -> St)
  (this : SelectionTreeType) (s : St) : St :=
  let s := if selected this then callback (item this) s else s in
  fold_left (fun s kv => forEach callback (snd kv) s) (children this) s.

(** [getChild(id)] *)
Definition getChild (id : Id) (this : SelectionTreeType)
  : option SelectionTreeType :=
  get (children this) (key_of id).

(** [deleteChild(id)] *)
Definition deleteChild (id : Id) (this : SelectionTreeType)
  : SelectionTreeType :=
  if hasOwnProperty (children this) (key_of id) then
    match get (children this) (key_of id) with
    | Some child =>
        let this := set_size this (size this - size child) in
        set_children this (delete (children this) (key_of id))
    | None => this
    end
  else this.

(** The initial value of the store [selection]:
    [new SelectionTreeType(new ListRootItem())]. *)
Definition initial_selection : SelectionTreeType :=
  new_SelectionTreeType ListRootItem.

(** [selectItem(item)], as the update it applies to the store. *)
Definition selectItem (it : ListItem) (selection : SelectionTreeType)
  : option SelectionTreeType :=
  set it true (clear selection).

(** [selectFile(fileId)] *)
Definition selectFile (fileId : string) (selection : SelectionTreeType)
  : option SelectionTreeType :=
  selectItem (ListFileItem fileId) selection.

(** [addSelectItem(item)] *)
Definition addSelectItem (it : ListItem) (selection : SelectionTreeType)
  : option SelectionTreeType :=
  toggle it selection.

(** [addSelectFile(fileId)] *)
Definition addSelectFile (fileId : string) (selection : SelectionTreeType)
  : option SelectionTreeType :=
  addSelectItem (ListFileItem fileId) selection.

(** *** The stores read by [selectAll] *)

(** The part of a GPX file that [selectAll] reads: [file.trk], the tracks,
    each with its segments [trkseg], and [file.wpt], the waypoints.  Only the
    lengths of these arrays are used. *)
Inductive TrackSegment : Type := mkTrackSegment.
Inductive Waypoint : Type := mkWaypoint.
Record Track : Type := mkTrack { trkseg : list TrackSegment }.
Record GPXFile : Type := mkGPXFile { trk : list Track; wpt : list Waypoint }.

(** [fileObservers]: a [Map] from file identifiers to stores, in order of
    insertion; the value of a store may be undefined. *)
Definition FileObservers : Type := list (string * option GPXFile).

(** [map.get(fileId)] *)
Fixpoint map_get (m : FileObservers) (fileId : string)
  : option (option GPXFile) :=
  match m with
  | [] => None
  | (k, v) :: m' => if String.eqb k fileId then Some v else map_get m' fileId
  end.

(** [array.forEach((element, index) => ...)] from index [i] on, the callback
    acting on a state of the caller. *)
Fixpoint array_forEach {A St : Type} (callback : A -> N -> St -> St)
  (array : list A) (i : N) (s : St) : St :=
  match array with
  | [] => s
  | a :: array' => array_forEach callback array' (N.succ i) (callback a i s)
  end.

(** [$selection.set(it, true)] inside a loop: the state of the loop is the
    tree, or [None] once a call has failed. *)
Definition select (it : ListItem) (selection : option SelectionTreeType)
  : option SelectionTreeType :=
  selection <- selection ;; set it true selection.

(** [selectAll()], as the update it applies to the store.  [item.getFileId()]
    and [item.getTrackIndex()] are the fields of the item.  [None] is the
    TypeError of [file.trk[i].trkseg] when the file has no track [i]. *)
Definition selectAll (fileObservers : FileObservers)
  (selection : SelectionTreeType) : option SelectionTreeType :=
  let it := forEach (fun i _ => i) selection ListRootItem in
  match it with
  | ListRootItem | ListFileItem _ =>
      let selection := clear selection in
      fold_left (fun sel entry => select (ListFileItem (fst entry)) sel)
        fileObservers (Some selection)
  | ListTrackItem fileId _ =>
      match map_get fileObservers fileId with
      | Some (Some file) =>
          array_forEach
            (fun _ trackId sel => select (ListTrackItem fileId trackId) sel)
            (trk file) 0%N (Some selection)
      | _ => Some selection
      end
  | ListTrackSegmentItem fileId trackIndex _ =>
      match map_get fileObservers fileId with
      | Some (Some file) =>
          track <- nth_error (trk file) (N.to_nat trackIndex) ;;
          array_forEach
            (fun _ segmentId sel =>
               select (ListTrackSegmentItem fileId trackIndex segmentId) sel)
            (trkseg track) 0%N (Some selection)
      | _ => Some selection
      end
  | ListWaypointItem fileId _ =>
      match map_get fileObservers fileId with
      | Some (Some file) =>
          array_forEach
            (fun _ waypointId sel =>
               select (ListWaypointItem fileId waypointId) sel)
            (wpt file) 0%N (Some selection)
      | _ => Some selection
      end
  | ListWaypointsItem _ => Some selection
  end.

(** *** The aggregation bridge *)

(** [item.getFileId() === fileId] *)
Definition is_file (it : ListItem) (fileId : string) : bool :=
  match getFileId it with
  | Some f => String.eqb f fileId
  | None => false
  end.

Section Bridge.

(** [sortItems(items, reverse)] of FileList.ts, which is not among the
    sources: the array after the call. *)
Variable sortItems : list ListItem -> bool -> list ListItem.

(** The callback acts on a state of the caller. *)
Context {St : Type}.

(** The scan of the selection for one file: the variables [level] and
    [items] after [get(selection).forEach(...)]. *)
Definition scan (fileId : string) (selection : SelectionTreeType)
  : option ListLevel * list ListItem :=
  forEach
    (fun it st =>
       if is_file it fileId then
         (Some (level it),
          if is_file_level_item it then (snd st ++ [it])%list else snd st)
       else st)
    selection (None, []).

(** [applyToOrderedSelectedItemsFromFile(callback, reverse = true)], given
    the values of the stores [settings.fileOrder] and [selection]. *)
Definition applyToOrderedSelectedItemsFromFile
  (callback : string -> option ListLevel -> list ListItem -> St -> St)
  (reverse : option bool) (fileOrder : list string)
  (selection : SelectionTreeType) (s : St) : St :=
  let reverse := with_default true reverse in
  fold_left
    (fun s fileId =>
       let (level, items) := scan fileId selection in
       if (0 <? List.length items)%nat then
         callback fileId level (sortItems items reverse) s
       else s)
    fileOrder s.

End Bridge.

End Selection.

Export JsObject Selection.

(** ** stores.ts *)

Module Stores.

(** *** updateGPXData *)

(** [item instanceof ListWaypointItem || item instanceof ListWaypointsItem] *)
Definition is_waypoint_item (it : ListItem) : bool :=
  match it with
  | ListWaypointItem _ _ | ListWaypointsItem _ => true
  | _ => false
  end.

Section Statistics.

(** The statistics come from the package gpx and from db.ts, which are not
    among the sources: [GPXStatistics] with [new GPXStatistics()] and
    [statistics.mergeWith(other)] (the receiver after the call), the
    statistics of a file that [getStatistics(fileId)] reads from the store,
    undefined when the file has none, and [stats.getStatisticsFor(item)]. *)
Variable GPXStatistics : Type.
Variable new_GPXStatistics : GPXStatistics.
Variable mergeWith : GPXStatistics -> GPXStatistics -> GPXStatistics.
Variable FileStatistics : Type.
Variable getStatistics : string -> option FileStatistics.
Variable getStatisticsFor : FileStatistics -> ListItem -> GPXStatistics.
Variable sortItems : list ListItem -> bool -> list ListItem.

(** The loop [items.forEach(...)] of the callback, on the variables
    [statistics] and [first]. *)
Definition merge_items (stats : FileStatistics) (items : list ListItem)
  (statistics : GPXStatistics) : GPXStatistics * bool :=
  fold_left
    (fun st it =>
       if (negb (is_waypoint_item it) || snd st)%bool then
         (mergeWith (fst st) (getStatisticsFor stats it), false)
       else st)
    items (statistics, true).

(** [updateGPXData()]: the value it sets the store [gpxStatistics] to, given
    the values of the stores [settings.fileOrder] and [selection]. *)
Definition updateGPXData (fileOrder : list string)
  (selection : SelectionTreeType) : GPXStatistics :=
  applyToOrderedSelectedItemsFromFile sortItems
    (fun fileId _ items statistics =>
       match getStatistics fileId with
       | Some stats => fst (merge_items stats items statistics)
       | None => statistics
       end)
    (Some false) fileOrder selection new_GPXStatistics.

End Statistics.

(** *** The subscriber of the store selection *)

(** What the subscriber does to the observers of the files: it calls the
    [unsubscribe] kept for a file, or subscribes to the observer of a file. *)
Inductive SubscriptionEvent : Type :=
  | Unsubscribed (fileId : string)
  | Subscribed (fileId : string).

(** [unsubscribes.delete(fileId)] on the keys of the [Map], which are kept in
    order of insertion. *)
Definition map_delete (fileId : string) (keys : list string) : list string :=
  filter (fun k => negb (String.eqb k fileId)) keys.

(** [while (unsubscribes.size > 0) { ... }]: the first entry is taken, its
    [unsubscribe] called, its key deleted.  [fuel] bounds the iterations. *)
Fixpoint unsubscribe_all (fuel : nat) (unsubscribes : list string)
  (events : list SubscriptionEvent)
  : option (list string * list SubscriptionEvent) :=
  match unsubscribes with
  | [] => Some ([], events)
  | fileId :: _ =>
      match fuel with
      | O => None
      | S fuel' =>
          unsubscribe_all fuel' (map_delete fileId unsubscribes)
            (events ++ [Unsubscribed fileId])%list
      end
  end.

(** The callback of [$selection.forEach] in the subscriber: a file that has
    no entry yet and has an observer gets one. *)
Definition subscribe_item (fileObservers : FileObservers) (it : ListItem)
  (st : list string * list SubscriptionEvent)
  : list string * list SubscriptionEvent :=
  match getFileId it with
  | Some fileId =>
      if existsb (String.eqb fileId) (fst st) then st
      else
        match map_get fileObservers fileId with
        | Some _ =>
            ((fst st ++ [fileId])%list, (snd st ++ [Subscribed fileId])%list)
        | None => st
        end
  | None => st
  end.

(** The subscriber of [selection], after its call of [updateGPXData()]: the
    keys of [unsubscribes] afterwards and the calls made, in order.  The loop
    is given as many iterations as there are entries. *)
Definition refresh_subscriptions (fileObservers : FileObservers)
  (selection : SelectionTreeType) (unsubscribes : list string)
  : option (list string * list SubscriptionEvent) :=
  st <- unsubscribe_all (List.length unsubscribes) unsubscribes [] ;;
  Some (forEach (subscribe_item fileObservers) selection st).

(** *** toggleSelectionVisibility *)

(** [files.add(fileId)] on a [Set], kept in order of insertion; the
    identifier of the root item is undefined. *)
Definition set_add (fileId : option string) (files : list (option string))
  : list (option string) :=
  if existsb
       (fun f =>
          match f, fileId with
          | Some a, Some b => String.eqb a b
          | None, None => true
          | _, _ => false
          end) files
  then files
  else (files ++ [fileId])%list.

Section Layers.

(** [GPXLayer] is not among the sources; [layer.toggleVisibility()] changes
    the layer in place. *)
Variable GPXLayer : Type.
Variable toggleVisibility : GPXLayer -> GPXLayer.

(** [toggleSelectionVisibility()]: the layers of the [Map] [gpxLayers]
    afterwards.  The entries of the map are looked up and updated in place
    with [get] and [assign]. *)
Definition toggleSelectionVisibility (gpxLayers : list (string * GPXLayer))
  (selection : SelectionTreeType) : list (string * GPXLayer) :=
  let files :=
    forEach (fun it files => set_add (getFileId it) files) selection [] in
  fold_left
    (fun layers fileId =>
       match fileId with
       | Some f =>
           match get layers f with
           | Some layer => assign layers f (toggleVisibility layer)
           | None => layers
           end
       | None => layers
       end)
    files gpxLayers.

End Layers.

(** *** loadFile *)

(** [s.split(sep)] for a separator of one character. *)
Fixpoint split (sep : ascii) (s : string) : list string :=
  match s with
  | EmptyString => [EmptyString]
  | String c s' =>
      if Ascii.eqb c sep then EmptyString :: split sep s'
      else
        match split sep s' with
        | piece :: pieces => String c piece :: pieces
        | [] => [String c EmptyString]
        end
  end.

(** [pieces.join(sep)] *)
Fixpoint join (sep : string) (pieces : list string) : string :=
  match pieces with
  | [] => EmptyString
  | [piece] => piece
  | piece :: pieces' => piece ++ sep ++ join sep pieces'
  end.

(** [file.name.split('.').slice(0, -1).join('.')] *)
Definition name_without_extension (name : string) : string :=
  join "." (removelast (split "." name)).

Section LoadFile.

(** The GPX file that [parseGPX] of the package gpx returns, as far as
    [loadFile] reads and writes it: [metadata], which may be undefined, with
    its [name], which may be undefined.  [Fields] stands for the other fields
    of the metadata, [no_fields] for their absence in the object
    [{ name: ... }], and [Content] for the rest of the file. *)
Variable Fields : Type.
Variable no_fields : Fields.
Variable Content : Type.

Record Metadata : Type := mkMetadata {
  name : option string;
  fields : Fields
}.

Record ParsedGPX : Type := mkParsedGPX {
  metadata : option Metadata;
  content : Content
}.

Variable parseGPX : string -> ParsedGPX.

(** The body of [reader.onload]: what the promise resolves to, given
    [reader.result?.toString() ?? null] and [file.name].  The empty string is
    falsy. *)
Definition onload (fileName : string) (data : option string)
  : option ParsedGPX :=
  match data with
  | Some text =>
      if String.eqb text "" then None
      else
        let gpx := parseGPX text in
        match metadata gpx with
        | None =>
            Some (mkParsedGPX
                    (Some (mkMetadata
                             (Some (name_without_extension fileName))
                             no_fields))
                    (content gpx))
        | Some m =>
            match name m with
            | None =>
                Some (mkParsedGPX
                        (Some (mkMetadata
                                 (Some (name_without_extension fileName))
                                 (fields m)))
                        (content gpx))
            | Some _ => Some gpx
            end
        end
  | None => None
  end.

End LoadFile.

End Stores.

Export Stores.

(** ** Vocabulary of the properties *)

(** The nodes of a tree, the node itself first, then those of its children in
    enumeration order. *)
Fixpoint nodes (this : SelectionTreeType) : list SelectionTreeType :=
  this :: flat_map (fun kv => nodes (snd kv)) (children this).

(** The number of nodes of the subtree of [this], itself included, whose
    [selected] is true. *)
Definition selected_count (this : SelectionTreeType) : Z :=
  Z.of_nat (List.length (filter selected (nodes this))).

(** The items of the selected nodes, in traversal order. *)
Definition selected_items (this : SelectionTreeType) : list ListItem :=
  map item (filter selected (nodes this)).

(** What remains of a tree when the selection state is forgotten: the items
    and the keys of the children, in order. *)
Inductive Shape : Type :=
  ShapeNode (it : ListItem) (sub : list (string * Shape)).

Fixpoint shape (this : SelectionTreeType) : Shape :=
  ShapeNode (item this)
    (map (fun kv => (fst kv, shape (snd kv))) (children this)).

(** A subtree that holds no selection: nothing selected, every [size] 0. *)
Definition blank (this : SelectionTreeType) : Prop :=
  forall n, In n (nodes this) -> selected n = false /\ size n = 0.

(** [restored before after]: every node of [before] is a node of [after], at
    the same place, with the same [item], [selected] and [size]; the nodes of
    [after] that [before] does not have hold no selection. *)
Inductive restored : SelectionTreeType -> SelectionTreeType -> Prop :=
  | restored_node : forall before after,
      item after = item before ->
      selected after = selected before ->
      size after = size before ->
      (forall k c, get (children before) k = Some c ->
         exists c', get (children after) k = Some c' /\ restored c c') ->
      (forall k c', get (children before) k = None ->
         get (children after) k = Some c' -> blank c') ->
      restored before after.

(** [path_breaks it this]: following the identifiers of [it] down from
    [this], a node is met, before one of the level of [it], at which the item
    gives no identifier or which has no child under the identifier. *)
Fixpoint path_breaks (it : ListItem) (this : SelectionTreeType) : bool :=
  if level_eqb (level it) (level (item this)) then false
  else
    match getIdAtLevel it (level (item this)) with
    | Some id =>
        match
          call (fun c => (path_breaks it c, c)) (children this) (key_of id)
        with
        | Some (r, _) => r
        | None => true
        end
    | None => true
    end.

(** The sum of the [size] fields of the children. *)
Definition sum_sizes (o : list (string * SelectionTreeType)) : Z :=
  fold_right (fun kv acc => size (snd kv) + acc) 0 o.

(** What [_setOrToggle] and [deleteChild] maintain at a node: [size] counts
    the node when it is selected, plus the [size] of each child. *)
Definition size_balanced (n : SelectionTreeType) : Prop :=
  size n = (if selected n then 1 else 0) + sum_sizes (children n).

(** No key occurs twice among the children of a node. *)
Definition keys_unique (n : SelectionTreeType) : Prop :=
  NoDup (map fst (children n)).

(** The two hold at every node of the tree. *)
Definition maintained (this : SelectionTreeType) : Prop :=
  forall n, In n (nodes this) -> size_balanced n /\ keys_unique n.

(** The items on the way from the root item to [it], [it] last. *)
Definition ancestors (it : ListItem) : list ListItem :=
  match it with
  | ListRootItem => [ListRootItem]
  | ListFileItem f => [ListRootItem; ListFileItem f]
  | ListTrackItem f t => [ListRootItem; ListFileItem f; ListTrackItem f t]
  | ListTrackSegmentItem f t s =>
      [ListRootItem; ListFileItem f; ListTrackItem f t;
       ListTrackSegmentItem f t s]
  | ListWaypointsItem f =>
      [ListRootItem; ListFileItem f; ListWaypointsItem f]
  | ListWaypointItem f w =>
      [ListRootItem; ListFileItem f; ListWaypointsItem f;
       ListWaypointItem f w]
  end.

(** Equality of two items: same class, same identifiers. *)
Definition ListItem_eqb (a b : ListItem) : bool :=
  match a, b with
  | ListRootItem, ListRootItem => true
  | ListFileItem f, ListFileItem f' => String.eqb f f'
  | ListTrackItem f t, ListTrackItem f' t' => String.eqb f f' && N.eqb t t'
  | ListTrackSegmentItem f t s, ListTrackSegmentItem f' t' s' =>
      String.eqb f f' && N.eqb t t' && N.eqb s s'
  | ListWaypointsItem f, ListWaypointsItem f' => String.eqb f f'
  | ListWaypointItem f w, ListWaypointItem f' w' =>
      String.eqb f f' && N.eqb w w'
  | _, _ => false
  end.

(** The identifier an item has below its parent. *)
Definition last_id (it : ListItem) : option Id :=
  match it with
  | ListRootItem => None
  | ListFileItem f => Some (IdStr f)
  | ListTrackItem _ t => Some (IdNum t)
  | ListTrackSegmentItem _ _ s => Some (IdNum s)
  | ListWaypointsItem _ => Some waypoints_id
  | ListWaypointItem _ w => Some (IdNum w)
  end.

(** A child sits under the key of the identifier that extends the item of
    its parent into its own item: what [_setOrToggle] does when it creates
    [this.children[id] = new SelectionTreeType(this.item.extend(id))]. *)
Definition child_linked (parent : ListItem)
  (kv : string * SelectionTreeType) : Prop :=
  exists id, key_of id = fst kv /\ extend parent id = Some (item (snd kv)).

Definition linked (this : SelectionTreeType) : Prop :=
  forall n, In n (nodes this) -> Forall (child_linked (item n)) (children n).

(** The same, with the two facts of [maintained], as a test. *)
Definition child_linkedb (parent : ListItem)
  (kv : string * SelectionTreeType) : bool :=
  match last_id (item (snd kv)) with
  | Some id =>
      String.eqb (key_of id) (fst kv)
      && match extend parent id with
         | Some c => ListItem_eqb c (item (snd kv))
         | None => false
         end
  | None => false
  end.

Fixpoint distinct (keys : list string) : bool :=
  match keys with
  | [] => true
  | k :: keys' => negb (existsb (String.eqb k) keys') && distinct keys'
  end.

Definition node_formed (n : SelectionTreeType) : bool :=
  forallb (child_linkedb (item n)) (children n)
  && distinct (map fst (children n))
  && (size n =? (if selected n then 1 else 0) + sum_sizes (children n)).

(** A tree as the class builds it from [new SelectionTreeType(new
    ListRootItem())]: rooted at the root item, children linked to their
    parents, keys unique, sizes balanced. *)
Definition well_formed (this : SelectionTreeType) : bool :=
  ListItem_eqb (item this) ListRootItem && forallb node_formed (nodes this).

(** The mutating operations of the class, applied to the root of the tree. *)
Inductive Operation : Type :=
  | OpSet (it : ListItem) (value : bool)
  | OpToggle (it : ListItem)
  | OpDeleteChild (id : Id)
  | OpClear.

Definition perform (op : Operation) (this : SelectionTreeType)
  : option SelectionTreeType :=
  match op with
  | OpSet it value => set it value this
  | OpToggle it => toggle it this
  | OpDeleteChild id => Some (deleteChild id this)
  | OpClear => Some (clear this)
  end.

Fixpoint perform_all (ops : list Operation) (this : SelectionTreeType)
  : option SelectionTreeType :=
  match ops with
  | [] => Some this
  | op :: ops' => this <- perform op this ;; perform_all ops' this
  end.

(** *** Vocabulary of selectAll *)

(** The last selected item that a traversal visits; the root item when
    nothing is selected. *)
Definition last_selected (selection : SelectionTreeType) : ListItem :=
  last (getSelected None selection) ListRootItem.

(** The indices of an array of length [n], counted from [i]. *)
Fixpoint indices (i : N) (n : nat) : list N :=
  match n with
  | O => []
  | S n' => i :: indices (N.succ i) n'
  end.

(** The items at the level and in the scope of [it]: the files of the store
    for the root or a file; the tracks of its file for a track; the segments
    of its track for a segment; the waypoints of its file for a waypoint;
    nothing for the group of waypoints, or when the file is not in the
    store. *)
Definition level_items (fileObservers : FileObservers) (it : ListItem)
  : list ListItem :=
  match it with
  | ListRootItem | ListFileItem _ =>
      map (fun entry => ListFileItem (fst entry)) fileObservers
  | ListTrackItem f _ =>
      match map_get fileObservers f with
      | Some (Some file) =>
          map (ListTrackItem f) (indices 0 (List.length (trk file)))
      | _ => []
      end
  | ListTrackSegmentItem f t _ =>
      match map_get fileObservers f with
      | Some (Some file) =>
          match nth_error (trk file) (N.to_nat t) with
          | Some track =>
              map (ListTrackSegmentItem f t)
                (indices 0 (List.length (trkseg track)))
          | None => []
          end
      | _ => []
      end
  | ListWaypointsItem _ => []
  | ListWaypointItem f _ =>
      match map_get fileObservers f with
      | Some (Some file) =>
          map (ListWaypointItem f) (indices 0 (List.length (wpt file)))
      | _ => []
      end
  end.

(** The items for which [selectAll] calls [clear()]. *)
Definition clears (it : ListItem) : bool :=
  match it with
  | ListRootItem | ListFileItem _ => true
  | _ => false
  end.

(** The track of a segment is still in its file, when the file is in the
    store: [file.trk[i]] is defined. *)
Definition track_present (fileObservers : FileObservers) (it : ListItem)
  : bool :=
  match it with
  | ListTrackSegmentItem f t _ =>
      match map_get fileObservers f with
      | Some (Some file) =>
          match nth_error (trk file) (N.to_nat t) with
          | Some _ => true
          | None => false
          end
      | _ => true
      end
  | _ => true
  end.

(** *** Vocabulary of the aggregation bridge *)

(** The selected items of a file that are of the five classes, in traversal
    order. *)
Definition selected_of_file (fileId : string) (selection : SelectionTreeType)
  : list ListItem :=
  filter (fun it => is_file it fileId && is_file_level_item it)%bool
    (getSelected None selection).

(** The level of the last selected item of a file that a traversal visits. *)
Definition level_of_file (fileId : string) (selection : SelectionTreeType)
  : option ListLevel :=
  match List.rev (filter (fun it => is_file it fileId)
               (getSelected None selection)) with
  | [] => None
  | it :: _ => Some (level it)
  end.

(** The calls of the callback, in order: one for each file identifier of the
    file order that has such selected items, with them sorted. *)
Definition bridge_calls (sortItems : list ListItem -> bool -> list ListItem)
  (reverse : bool) (fileOrder : list string) (selection : SelectionTreeType)
  : list (string * option ListLevel * list ListItem) :=
  flat_map
    (fun fileId =>
       match selected_of_file fileId selection with
       | [] => []
       | items =>
           [(fileId, level_of_file fileId selection,
             sortItems items reverse)]
       end)
    fileOrder.

(** A callback that records its calls. *)
Definition record_call (fileId : string) (l : option ListLevel)
  (items : list ListItem)
  (calls : list (string * option ListLevel * list ListItem))
  : list (string * option ListLevel * list ListItem) :=
  (calls ++ [(fileId, l, items)])%list.

(** *** Sample data *)

(** A leaf: a node without children. *)
Definition leaf (it : ListItem) (sel : bool) : SelectionTreeType :=
  mkSelectionTree it sel [] (if sel then 1 else 0).

(** The file "f1" with its tracks 0, 1 and 2 selected. *)
Definition f1_three_tracks : SelectionTreeType :=
  mkSelectionTree (ListFileItem "f1") false
    [("0", leaf (ListTrackItem "f1" 0) true);
     ("1", leaf (ListTrackItem "f1" 1) true);
     ("2", leaf (ListTrackItem "f1" 2) true)] 3.

(** A selection of the three tracks of "f1" and of the file "f2". *)
Definition sample_selection : SelectionTreeType :=
  mkSelectionTree ListRootItem false
    [("f1", f1_three_tracks); ("f2", leaf (ListFileItem "f2") true)] 4.

(** The file "f2" selected, then track 0 of "f1": the keys of the root are in
    order of creation. *)
Definition mixed_selection : SelectionTreeType :=
  mkSelectionTree ListRootItem false
    [("f2", leaf (ListFileItem "f2") true);
     ("f1", mkSelectionTree (ListFileItem "f1") false
              [("0", leaf (ListTrackItem "f1" 0) true)] 1)] 2.

(** Track 5 of "f1" alone. *)
Definition stale_selection : SelectionTreeType :=
  mkSelectionTree ListRootItem false
    [("f1", mkSelectionTree (ListFileItem "f1") false
              [("5", leaf (ListTrackItem "f1" 5) true)] 1)] 1.

(** Track 1 of "f1" alone. *)
Definition track_selection : SelectionTreeType :=
  mkSelectionTree ListRootItem false
    [("f1", mkSelectionTree (ListFileItem "f1") false
              [("1", leaf (ListTrackItem "f1" 1) true)] 1)] 1.

(** A store with "f1", of two tracks, and "f2", of one. *)
Definition two_files : FileObservers :=
  [("f1", Some (mkGPXFile [mkTrack [mkTrackSegment]; mkTrack []] []));
   ("f2", Some (mkGPXFile [mkTrack []] [mkWaypoint]))].

(** The calls of [_setOrToggle] that return, as a relation between the
    receiver before and after: one rule for each way through the body. *)
Inductive SetOrToggle (it : ListItem) (value : option bool)
  : SelectionTreeType -> SelectionTreeType -> Prop :=
  | sot_same : forall this,
      level_eqb (level it) (level (item this)) = true ->
      selected this = with_default (negb (selected this)) value ->
      SetOrToggle it value this this
  | sot_flip : forall this,
      level_eqb (level it) (level (item this)) = true ->
      selected this <> with_default (negb (selected this)) value ->
      SetOrToggle it value this
        (mkSelectionTree (item this) (negb (selected this)) (children this)
           (size this + (if negb (selected this) then 1 else -1)))
  | sot_stop : forall this,
      level_eqb (level it) (level (item this)) = false ->
      getIdAtLevel it (level (item this)) = None ->
      SetOrToggle it value this this
  | sot_down : forall this id child child',
      level_eqb (level it) (level (item this)) = false ->
      getIdAtLevel it (level (item this)) = Some id ->
      get (children this) (key_of id) = Some child ->
      SetOrToggle it value child child' ->
      SetOrToggle it value this
        (mkSelectionTree (item this) (selected this)
           (put (children this) (key_of id) child')
           (size this - size child + size child'))
  | sot_new : forall this id child_item child',
      level_eqb (level it) (level (item this)) = false ->
      getIdAtLevel it (level (item this)) = Some id ->
      get (children this) (key_of id) = None ->
      extend (item this) id = Some child_item ->
      SetOrToggle it value (new_SelectionTreeType child_item) child' ->
      SetOrToggle it value this
        (mkSelectionTree (item this) (selected this)
           (put (children this) (key_of id) child')
           (size this - 0 + size child')).

(** *** Vocabulary of ignoreIds *)

(** Every identifier of the list is a number. *)
Definition all_numbers (ids : list Id) : bool :=
  forallb (fun id => match id with IdNum _ => true | IdStr _ => false end) ids.

Definition all_levels : list ListLevel :=
  [ROOT; FILE; TRACK; SEGMENT; WAYPOINTS; WAYPOINT].

(** None of the identifiers on the way to [it] is in the list. *)
Definition path_not_ignored (it : ListItem) (ids : list Id) : bool :=
  forallb
    (fun l =>
       match getIdAtLevel it l with
       | Some id => not_ignored (Some ids) id
       | None => true
       end)
    all_levels.

(** *** Vocabulary of stores.ts *)

(** The items of a sorted list that [updateGPXData] counts: the first one,
    and of the others those that are no waypoint items. *)
Definition counted_items (items : list ListItem) : list ListItem :=
  match items with
  | [] => []
  | it :: rest => it :: filter (fun x => negb (is_waypoint_item x)) rest
  end.

(** Some selected item belongs to the file. *)
Definition file_selected (fileId : string) (selection : SelectionTreeType)
  : bool :=
  existsb (fun it => is_file it fileId) (getSelected None selection).

(** The file identifier is in the set of [toggleSelectionVisibility]. *)
Definition mem_file (fileId : string) (files : list (option string)) : bool :=
  existsb
    (fun f => match f with Some a => String.eqb a fileId | None => false end)
    files.

(** The character occurs in the string. *)
Fixpoint occurs (c : ascii) (s : string) : bool :=
  match s with
  | EmptyString => false
  | String c' s' => (Ascii.eqb c' c || occurs c s')%bool
  end.

(** * Properties *)

(** ** Dictionaries *)

Section DictionaryFacts.
Context {T : Type}.
Implicit Types (o : list (string * T)) (k : string) (v : T).

Lemma hasOwnProperty_get o k :
  hasOwnProperty o k = match get o k with Some _ => true | None => false end.
Proof.
  induction o as [|[k' v'] o IH]; simpl; [reflexivity|].
  destruct (String.eqb k' k); [reflexivity | exact IH].
Qed.

Lemma get_In o k v : get o k = Some v -> In (k, v) o.
Proof.
  induction o as [|[k' v'] o IH]; simpl; [discriminate|].
  destruct (String.eqb k' k) eqn:E.
  - apply String.eqb_eq in E. intros [= ->]. left. now subst.
  - intros H. right. auto.
Qed.

Lemma get_None_keys o k : get o k = None <-> ~ In k (map fst o).
Proof.
  induction o as [|[k' v'] o IH]; simpl.
  - tauto.
  - destruct (String.eqb k' k) eqn:E.
    + apply String.eqb_eq in E. split; [discriminate | tauto].
    + apply String.eqb_neq in E. tauto.
Qed.

Lemma get_create o k v k' :
  get o k = None ->
  get (create o k v) k' = if String.eqb k k' then Some v else get o k'.
Proof.
  induction o as [|[k0 v0] o IH]; simpl; intros Hk.
  - reflexivity.
  - destruct (String.eqb k0 k) eqn:E0; [discriminate|].
    destruct (enumerated_before k k0); simpl.
    + reflexivity.
    + rewrite (IH Hk).
      destruct (String.eqb k0 k') eqn:E1; [|reflexivity].
      apply String.eqb_eq in E1. subst k'.
      rewrite String.eqb_sym, E0. reflexivity.
Qed.

Lemma get_assign o k v k' :
  get (assign o k v) k' =
  if String.eqb k k' then option_map (fun _ => v) (get o k) else get o k'.
Proof.
  induction o as [|[k0 v0] o IH]; simpl.
  - now destruct (String.eqb k k').
  - destruct (String.eqb k0 k) eqn:E0; simpl.
    + apply String.eqb_eq in E0. subst k0.
      now destruct (String.eqb k k').
    + destruct (String.eqb k0 k') eqn:E1; [|exact IH].
      apply String.eqb_eq in E1. subst k'.
      rewrite String.eqb_sym, E0. reflexivity.
Qed.

Lemma get_put o k v k' :
  get (put o k v) k' = if String.eqb k k' then Some v else get o k'.
Proof.
  unfold put. rewrite hasOwnProperty_get.
  destruct (get o k) eqn:E.
  - rewrite get_assign, E. reflexivity.
  - now apply get_create.
Qed.

Lemma get_put_same o k v : get (put o k v) k = Some v.
Proof. rewrite get_put, String.eqb_refl. reflexivity. Qed.

Lemma hasOwnProperty_put o k v : hasOwnProperty (put o k v) k = true.
Proof. rewrite hasOwnProperty_get, get_put_same. reflexivity. Qed.

Lemma assign_assign o k v v' : assign (assign o k v) k v' = assign o k v'.
Proof.
  induction o as [|[k0 v0] o IH]; simpl; [reflexivity|].
  destruct (String.eqb k0 k) eqn:E; simpl; rewrite E; [reflexivity|].
  now rewrite IH.
Qed.

Lemma assign_create o k v v' :
  get o k = None -> assign (create o k v) k v' = create o k v'.
Proof.
  induction o as [|[k0 v0] o IH]; simpl; intros Hk.
  - now rewrite String.eqb_refl.
  - destruct (String.eqb k0 k) eqn:E; [discriminate|].
    destruct (enumerated_before k k0); simpl.
    + now rewrite String.eqb_refl.
    + rewrite E. now rewrite IH.
Qed.

Lemma put_put o k v v' : put (put o k v) k v' = put o k v'.
Proof.
  unfold put at 1. rewrite hasOwnProperty_put.
  unfold put. rewrite hasOwnProperty_get.
  destruct (get o k) eqn:E.
  - apply assign_assign.
  - now apply assign_create.
Qed.

Lemma assign_get o k v : get o k = Some v -> assign o k v = o.
Proof.
  induction o as [|[k0 v0] o IH]; simpl; [reflexivity|].
  destruct (String.eqb k0 k) eqn:E.
  - now intros [= ->].
  - intros H. now rewrite IH.
Qed.

Lemma get_delete o k k' :
  get (delete o k) k' = if String.eqb k k' then None else get o k'.
Proof.
  unfold delete.
  induction o as [|[k0 v0] o IH]; simpl.
  - now destruct (String.eqb k k').
  - destruct (String.eqb k0 k) eqn:E0; simpl.
    + apply String.eqb_eq in E0. subst k0.
      rewrite IH. now destruct (String.eqb k k').
    + destruct (String.eqb k0 k') eqn:E1; [|exact IH].
      apply String.eqb_eq in E1. subst k'.
      rewrite String.eqb_sym, E0. reflexivity.
Qed.

Lemma call_get {R : Type} (m : T -> R * T) o k :
  call m o k =
  match get o k with
  | Some v => Some (fst (m v), assign o k (snd (m v)))
  | None => None
  end.
Proof.
  induction o as [|[k0 v0] o IH]; simpl; [reflexivity|].
  destruct (String.eqb k0 k).
  - now destruct (m v0).
  - rewrite IH. now destruct (get o k).
Qed.

Lemma keys_assign o k v : map fst (assign o k v) = map fst o.
Proof.
  induction o as [|[k0 v0] o IH]; simpl; [reflexivity|].
  destruct (String.eqb k0 k); simpl; [reflexivity | now rewrite IH].
Qed.

Lemma In_keys_create o k v k' :
  In k' (map fst (create o k v)) <-> k' = k \/ In k' (map fst o).
Proof.
  induction o as [|[k0 v0] o IH]; simpl.
  - intuition.
  - destruct (enumerated_before k k0); simpl; [intuition|].
    rewrite IH. intuition.
Qed.

Lemma NoDup_keys_create o k v :
  get o k = None -> NoDup (map fst o) -> NoDup (map fst (create o k v)).
Proof.
  induction o as [|[k0 v0] o IH]; simpl; intros Hk Hnd.
  - repeat constructor. intros [].
  - destruct (String.eqb k0 k) eqn:E; [discriminate|].
    apply String.eqb_neq in E.
    inversion Hnd as [|? ? Hnot Hnd']; subst.
    destruct (enumerated_before k k0); simpl.
    + constructor; [|exact Hnd].
      simpl. intros [-> | Hin]; [congruence|].
      now apply get_None_keys in Hk.
    + constructor; [|now apply IH].
      rewrite In_keys_create. intros [-> | Hin]; [congruence | tauto].
Qed.

Lemma NoDup_keys_put o k v :
  NoDup (map fst o) -> NoDup (map fst (put o k v)).
Proof.
  unfold put. rewrite hasOwnProperty_get.
  destruct (get o k) eqn:E; intros H.
  - now rewrite keys_assign.
  - now apply NoDup_keys_create.
Qed.

Lemma NoDup_keys_delete o k :
  NoDup (map fst o) -> NoDup (map fst (delete o k)).
Proof.
  unfold delete.
  induction o as [|[k0 v0] o IH]; simpl; intros Hnd; [constructor|].
  inversion Hnd as [|? ? Hnot Hnd']; subst.
  destruct (String.eqb k0 k); simpl; [now apply IH|].
  constructor; [|now apply IH].
  intros Hin. apply Hnot.
  apply in_map_iff in Hin. destruct Hin as [[k1 v1] [Hk Hin]].
  apply filter_In in Hin. apply in_map_iff. exists (k1, v1). tauto.
Qed.

Lemma delete_absent o k : get o k = None -> delete o k = o.
Proof.
  unfold delete.
  induction o as [|[k0 v0] o IH]; simpl; [reflexivity|].
  destruct (String.eqb k0 k); [discriminate|].
  simpl. intros H. now rewrite IH.
Qed.

End DictionaryFacts.

Lemma In_assign {T : Type} (o : list (string * T)) k v kv :
  In kv (assign o k v) -> kv = (k, v) \/ In kv o.
Proof.
  induction o as [|[k0 v0] o IH]; simpl; [tauto|].
  destruct (String.eqb k0 k) eqn:E; simpl.
  - apply String.eqb_eq in E. subst k0. intuition.
  - intuition.
Qed.

Lemma In_create {T : Type} (o : list (string * T)) k v kv :
  In kv (create o k v) <-> kv = (k, v) \/ In kv o.
Proof.
  induction o as [|[k0 v0] o IH]; simpl.
  - intuition.
  - destruct (enumerated_before k k0); simpl; [intuition|].
    rewrite IH. intuition.
Qed.

Lemma In_put {T : Type} (o : list (string * T)) k v kv :
  In kv (put o k v) -> kv = (k, v) \/ In kv o.
Proof.
  unfold put. destruct (hasOwnProperty o k).
  - apply In_assign.
  - apply In_create.
Qed.

Lemma In_delete {T : Type} (o : list (string * T)) k kv :
  In kv (delete o k) -> In kv o.
Proof. unfold delete. intros H. now apply filter_In in H. Qed.

(** ** The tree: induction, nodes, traversals *)

(** Induction on a tree with the property available for every child. *)
Lemma tree_induction (P : SelectionTreeType -> Prop) :
  (forall this, Forall (fun kv => P (snd kv)) (children this) -> P this) ->
  forall this, P this.
Proof.
  intros step. fix IH 1. intros [it s c z]. apply step. simpl.
  induction c as [|[k v] c IHc]; constructor; [apply IH | exact IHc].
Qed.

Lemma set_children_same this : set_children this (children this) = this.
Proof. now destruct this. Qed.

Lemma in_nodes this n :
  In n (nodes this) <->
  n = this \/ exists kv, In kv (children this) /\ In n (nodes (snd kv)).
Proof.
  destruct this as [it s c z]. simpl. rewrite in_flat_map.
  intuition.
Qed.

Lemma nodes_self this : In this (nodes this).
Proof. apply in_nodes. now left. Qed.

Lemma nodes_child this k c n :
  In (k, c) (children this) -> In n (nodes c) -> In n (nodes this).
Proof.
  intros Hc Hn. apply in_nodes. right. exists (k, c). auto.
Qed.

Lemma nodes_trans this m n :
  In m (nodes this) -> In n (nodes m) -> In n (nodes this).
Proof.
  revert m n. induction this as [this IH] using tree_induction.
  intros m n Hm Hn. apply in_nodes in Hm.
  destruct Hm as [-> | [[k c] [Hin Hm]]]; [exact Hn|].
  rewrite Forall_forall in IH.
  apply (nodes_child this k c); [exact Hin|].
  apply (IH (k, c) Hin m n); assumption.
Qed.

Lemma getSelected_items this :
  forall selection,
    getSelected selection this =
    (with_default [] selection ++ selected_items this)%list.
Proof.
  induction this as [this IH] using tree_induction.
  intros selection. destruct this as [it s c z]. simpl in IH.
  unfold selected_items. simpl.
  set (acc := with_default [] selection).
  assert (Hfold : forall acc0,
    fold_left (fun sel kv => getSelected (Some sel) (snd kv)) c acc0 =
    (acc0 ++ map item (filter selected
                        (flat_map (fun kv => nodes (snd kv)) c)))%list).
  { induction c as [|[k v] c IHc]; intros acc0; simpl.
    - now rewrite app_nil_r.
    - inversion IH as [|? ? Hv Hc]; subst.
      simpl in Hv. rewrite (IHc Hc), (Hv (Some acc0)). simpl.
      unfold selected_items.
      rewrite filter_app, map_app, app_assoc. reflexivity. }
  rewrite Hfold. destruct s; simpl.
  - rewrite <- app_assoc. reflexivity.
  - reflexivity.
Qed.

Lemma getSelected_None this : getSelected None this = selected_items this.
Proof. now rewrite getSelected_items. Qed.

Lemma forEach_items {St : Type} (callback : ListItem -> St -> St) this :
  forall s,
    forEach callback this s =
    fold_left (fun s it => callback it s) (selected_items this) s.
Proof.
  induction this as [this IH] using tree_induction.
  intros s. destruct this as [it sel c z]. simpl in IH.
  unfold selected_items. simpl.
  assert (Hfold : forall s0,
    fold_left (fun s kv => forEach callback (snd kv) s) c s0 =
    fold_left (fun s it => callback it s)
      (map item (filter selected (flat_map (fun kv => nodes (snd kv)) c)))
      s0).
  { induction c as [|[k v] c IHc]; intros s0; simpl.
    - reflexivity.
    - inversion IH as [|? ? Hv Hc]; subst.
      simpl in Hv. rewrite (IHc Hc), (Hv s0). simpl. unfold selected_items.
      rewrite filter_app, map_app, fold_left_app. reflexivity. }
  rewrite Hfold. destruct sel; reflexivity.
Qed.

Lemma selected_count_items this :
  selected_count this = Z.of_nat (List.length (getSelected None this)).
Proof.
  rewrite getSelected_None. unfold selected_count, selected_items.
  now rewrite length_map.
Qed.

(** ** The queries *)

Lemma has_unfold it this :
  has it this =
  if level_eqb (level it) (level (item this)) then (selected this, this)
  else
    match getIdAtLevel it (level (item this)) with
    | Some id =>
        match call (has it) (children this) (key_of id) with
        | Some (r, c) => (r, set_children this c)
        | None => (false, this)
        end
    | None => (false, this)
    end.
Proof. now destruct this. Qed.

Lemma hasAnyParent_unfold it self this :
  hasAnyParent it self this =
  let self := with_default true self in
  if (selected this && level_leb (level (item this)) (level it)
      && (self || level_ltb (level (item this)) (level it)))%bool
  then (selected this, this)
  else
    match getIdAtLevel it (level (item this)) with
    | Some id =>
        match call (hasAnyParent it (Some self)) (children this) (key_of id)
        with
        | Some (r, c) => (r, set_children this c)
        | None => (false, this)
        end
    | None => (false, this)
    end.
Proof. now destruct this. Qed.

Lemma hasAnyChildren_unfold it self ignoreIds this :
  hasAnyChildren it self ignoreIds this =
  let self := with_default true self in
  if (selected this && level_geb (level (item this)) (level it)
      && (self || level_gtb (level (item this)) (level it)))%bool
  then (selected this, this)
  else
    match getIdAtLevel it (level (item this)) with
    | Some id =>
        if not_ignored ignoreIds id then
          match
            call (hasAnyChildren it (Some self) ignoreIds) (children this)
              (key_of id)
          with
          | Some (r, c) => (r, set_children this c)
          | None => (false, this)
          end
        else (false, this)
    | None =>
        let (r, c) :=
          call_until_true (hasAnyChildren it (Some self) ignoreIds)
            (fun key => negb (not_ignored ignoreIds (IdStr key)))
            (children this) in
        (r, set_children this c)
    end.
Proof. now destruct this. Qed.

(** A call on a child that leaves the child as it was leaves the dictionary
    as it was. *)
Lemma call_readonly {T R : Type} (m : T -> R * T) o k :
  Forall (fun kv => snd (m (snd kv)) = snd kv) o ->
  match call m o k with
  | Some (_, o') => o' = o
  | None => True
  end.
Proof.
  intros Hall. rewrite call_get. destruct (get o k) as [v|] eqn:E; [|exact I].
  rewrite Forall_forall in Hall. pose proof (Hall _ (get_In _ _ _ E)) as Hv.
  simpl in Hv. rewrite Hv. now apply assign_get.
Qed.

Lemma call_until_true_readonly {T : Type} (m : T -> bool * T) skip o :
  Forall (fun kv => snd (m (snd kv)) = snd kv) o ->
  snd (call_until_true m skip o) = o.
Proof.
  induction o as [|[k v] o IH]; simpl; intros Hall; [reflexivity|].
  inversion Hall as [|? ? Hv Ho]; subst. simpl in Hv.
  specialize (IH Ho).
  destruct (call_until_true m skip o) as [r o'']. simpl in IH. subst o''.
  destruct (skip k); simpl; [reflexivity|].
  destruct (m v) as [r' v']. simpl in Hv. subst v'.
  destruct r'; reflexivity.
Qed.

Lemma call_until_true_answer {T : Type} (m : T -> bool * T) skip o :
  fst (call_until_true m skip o) = true ->
  exists kv, In kv o /\ skip (fst kv) = false /\ fst (m (snd kv)) = true.
Proof.
  induction o as [|[k v] o IH]; simpl; [discriminate|].
  destruct (call_until_true m skip o) as [r o''] eqn:E. simpl in IH.
  destruct (skip k) eqn:Es; simpl.
  - intros ->. destruct (IH eq_refl) as [kv [? ?]]. exists kv. tauto.
  - destruct (m v) as [r' v'] eqn:Em. destruct r'; simpl.
    + intros _. exists (k, v). simpl. rewrite Em. auto.
    + intros ->. destruct (IH eq_refl) as [kv [? ?]]. exists kv. tauto.
Qed.

Lemma has_readonly it this : snd (has it this) = this.
Proof.
  induction this as [this IH] using tree_induction.
  rewrite has_unfold.
  destruct (level_eqb _ _); [reflexivity|].
  destruct (getIdAtLevel _ _) as [id|]; [|reflexivity].
  pose proof (call_readonly (has it) (children this) (key_of id) IH) as H.
  destruct (call _ _ _) as [[r c]|]; [|reflexivity].
  simpl. subst c. apply set_children_same.
Qed.

Lemma hasAnyParent_readonly it this :
  forall self, snd (hasAnyParent it self this) = this.
Proof.
  induction this as [this IH] using tree_induction.
  intros self. rewrite hasAnyParent_unfold. cbv zeta.
  destruct (_ && _ && _)%bool; [reflexivity|].
  destruct (getIdAtLevel _ _) as [id|]; [|reflexivity].
  set (m := hasAnyParent it (Some (with_default true self))).
  assert (Hall : Forall (fun kv => snd (m (snd kv)) = snd kv)
                   (children this)).
  { eapply Forall_impl; [|exact IH]. intros kv H. apply H. }
  pose proof (call_readonly m (children this) (key_of id) Hall) as H.
  destruct (call _ _ _) as [[r c]|]; [|reflexivity].
  simpl. subst c. apply set_children_same.
Qed.

Lemma hasAnyChildren_readonly it ignoreIds this :
  forall self, snd (hasAnyChildren it self ignoreIds this) = this.
Proof.
  induction this as [this IH] using tree_induction.
  intros self. rewrite hasAnyChildren_unfold. cbv zeta.
  destruct (_ && _ && _)%bool; [reflexivity|].
  set (m := hasAnyChildren it (Some (with_default true self)) ignoreIds).
  assert (Hall : Forall (fun kv => snd (m (snd kv)) = snd kv)
                   (children this)).
  { eapply Forall_impl; [|exact IH]. intros kv H. apply H. }
  destruct (getIdAtLevel _ _) as [id|].
  - destruct (not_ignored _ _); [|reflexivity].
    pose proof (call_readonly m (children this) (key_of id) Hall) as H.
    destruct (call _ _ _) as [[r c]|]; [|reflexivity].
    simpl. subst c. apply set_children_same.
  - pose proof (call_until_true_readonly m
        (fun key => negb (not_ignored ignoreIds (IdStr key)))
        (children this) Hall) as H.
    destruct (call_until_true _ _ _) as [r c]. simpl in *. subst c.
    apply set_children_same.
Qed.

(** An answer [true] comes from a selected node. *)
Lemma has_answer it this :
  fst (has it this) = true ->
  exists n, In n (nodes this) /\ selected n = true /\
            level_eqb (level it) (level (item n)) = true.
Proof.
  induction this as [this IH] using tree_induction.
  rewrite has_unfold.
  destruct (level_eqb _ _) eqn:El.
  - simpl. intros Hs. exists this. auto using nodes_self.
  - destruct (getIdAtLevel _ _) as [id|]; [|discriminate].
    rewrite call_get.
    destruct (get _ _) as [c|] eqn:E; [|discriminate].
    simpl. intros Hc. apply get_In in E.
    rewrite Forall_forall in IH. destruct (IH _ E Hc) as [n [Hn Hrest]].
    exists n. split; [|exact Hrest].
    eapply nodes_child; eauto.
Qed.

Lemma hasAnyParent_answer it this :
  forall self,
    fst (hasAnyParent it self this) = true ->
    exists n, In n (nodes this) /\ selected n = true /\
              level_leb (level (item n)) (level it) = true /\
              (with_default true self
               || level_ltb (level (item n)) (level it))%bool = true.
Proof.
  induction this as [this IH] using tree_induction.
  intros self. rewrite hasAnyParent_unfold. cbv zeta.
  destruct (_ && _ && _)%bool eqn:Ec.
  - simpl. intros Hs. exists this.
    apply andb_prop in Ec. destruct Ec as [Ec ?].
    apply andb_prop in Ec. destruct Ec as [? ?].
    auto using nodes_self.
  - destruct (getIdAtLevel _ _) as [id|]; [|discriminate].
    rewrite call_get.
    destruct (get _ _) as [c|] eqn:E; [|discriminate].
    simpl. intros Hc. apply get_In in E.
    rewrite Forall_forall in IH. destruct (IH _ E _ Hc) as [n [Hn Hrest]].
    exists n. split; [|exact Hrest].
    eapply nodes_child; eauto.
Qed.

Lemma hasAnyChildren_answer it ignoreIds this :
  forall self,
    fst (hasAnyChildren it self ignoreIds this) = true ->
    exists n, In n (nodes this) /\ selected n = true.
Proof.
  induction this as [this IH] using tree_induction.
  intros self. rewrite hasAnyChildren_unfold. cbv zeta.
  rewrite Forall_forall in IH.
  destruct (_ && _ && _)%bool eqn:Ec.
  - simpl. intros Hs. exists this. auto using nodes_self.
  - destruct (getIdAtLevel _ _) as [id|].
    + destruct (not_ignored _ _); [|discriminate].
      rewrite call_get.
      destruct (get _ _) as [c|] eqn:E; [|discriminate].
      simpl. intros Hc. apply get_In in E.
      destruct (IH _ E _ Hc) as [n [Hn Hrest]].
      exists n. split; [|exact Hrest].
      eapply nodes_child; eauto.
    + destruct (call_until_true _ _ _) as [r c] eqn:E. simpl. intros ->.
      pose proof (call_until_true_answer
        (hasAnyChildren it (Some (with_default true self)) ignoreIds)
        (fun key => negb (not_ignored ignoreIds (IdStr key)))
        (children this)) as H.
      rewrite E in H. destruct (H eq_refl) as [[k v] [Hin [_ Hv]]].
      destruct (IH _ Hin _ Hv) as [n [Hn Hrest]].
      exists n. split; [|exact Hrest].
      eapply nodes_child; eauto.
Qed.

(** ** clear *)

Lemma clear_unfold this :
  clear this =
  mkSelectionTree (item this) false
    (map (fun kv => (fst kv, clear (snd kv))) (children this)) 0.
Proof. now destruct this. Qed.

Lemma clear_blank this : blank (clear this).
Proof.
  induction this as [this IH] using tree_induction.
  intros n Hn. rewrite clear_unfold in Hn. apply in_nodes in Hn.
  destruct Hn as [-> | [kv [Hin Hn]]]; [now split|].
  simpl in Hin. apply in_map_iff in Hin.
  destruct Hin as [[k c] [<- Hin]]. simpl in Hn.
  rewrite Forall_forall in IH. exact (IH _ Hin n Hn).
Qed.

Lemma clear_shape this : shape (clear this) = shape this.
Proof.
  induction this as [this IH] using tree_induction.
  destruct this as [it s c z]. simpl in *. f_equal.
  rewrite map_map. apply map_ext_in. intros [k v] Hin. simpl.
  rewrite Forall_forall in IH. f_equal. exact (IH _ Hin).
Qed.

Lemma filter_none {A : Type} (f : A -> bool) (l : list A) :
  (forall x, In x l -> f x = false) -> filter f l = [].
Proof.
  induction l as [|a l IH]; simpl; intros H; [reflexivity|].
  rewrite (H a (or_introl eq_refl)). apply IH. auto.
Qed.

Lemma blank_selected_items this : blank this -> selected_items this = [].
Proof.
  intros Hb. unfold selected_items.
  rewrite filter_none; [reflexivity|].
  intros n Hn. exact (proj1 (Hb n Hn)).
Qed.

(** ** _setOrToggle: the calls that return, and that every call returns *)

(** Case analysis on the condition of the first conditional of the goal. *)
Ltac case_if :=
  match goal with
  | |- context [if ?b then _ else _] => destruct b eqn:?
  end.

Lemma _setOrToggle_sound fuel it value :
  forall this this',
    _setOrToggle fuel it value this = Some this' ->
    SetOrToggle it value this this'.
Proof.
  induction fuel as [|fuel IH]; intros this this'; simpl; [discriminate|].
  destruct (level_eqb (level it) (level (item this))) eqn:El.
  - set (newSelected := match value with
                        | Some v => v
                        | None => negb (selected this)
                        end).
    assert (Hnew : newSelected = with_default (negb (selected this)) value)
      by now destruct value.
    clearbody newSelected.
    destruct (Bool.eqb (selected this) newSelected) eqn:Eb.
    + intros [= <-]. apply Bool.eqb_prop in Eb.
      apply sot_same; [exact El | congruence].
    + intros [= <-]. apply Bool.eqb_false_iff in Eb.
      assert (Hneg : newSelected = negb (selected this))
        by (revert Eb; destruct (selected this), newSelected; simpl;
            congruence).
      rewrite Hneg. unfold set_size, set_selected. simpl.
      apply sot_flip; [exact El | congruence].
  - destruct (getIdAtLevel it (level (item this))) as [id|] eqn:Eid.
    + rewrite hasOwnProperty_get.
      destruct (get (children this) (key_of id)) as [child|] eqn:Eget.
      * simpl. rewrite Eget. simpl.
        destruct (_setOrToggle fuel it value child) as [child'|] eqn:Erec;
          [|discriminate].
        simpl. intros [= <-].
        apply (sot_down it value this id child child'); auto.
      * destruct (extend (item this) id) as [child_item|] eqn:Eext;
          [|discriminate].
        simpl. rewrite get_put_same. simpl.
        destruct (_setOrToggle fuel it value
                    (new_SelectionTreeType child_item)) as [child'|] eqn:Erec;
          [|discriminate].
        simpl. intros [= <-]. rewrite put_put.
        apply (sot_new it value this id child_item child'); auto.
    + intros [= <-]. now apply sot_stop.
Qed.

(** An identifier that an item gives for the level of a node extends the item
    of that node, one step down. *)
Lemma extend_getIdAtLevel it n id :
  getIdAtLevel it (level n) = Some id ->
  exists child_item,
    extend n id = Some child_item /\
    ordinal (level n) < ordinal (level child_item).
Proof.
  destruct n, it; simpl; try discriminate; intros [= <-]; simpl;
    eexists; (split; [reflexivity | simpl; lia]).
Qed.

Lemma ordinal_range l : 0 <= ordinal l <= 5.
Proof. destruct l; simpl; lia. Qed.

Lemma _setOrToggle_new_returns it value :
  forall fuel child_item,
    (Z.to_nat (6 - ordinal (level child_item)) <= fuel)%nat ->
    exists this',
      _setOrToggle fuel it value (new_SelectionTreeType child_item)
      = Some this'.
Proof.
  induction fuel as [|fuel IH]; intros ci Hfuel.
  - pose proof (ordinal_range (level ci)). lia.
  - simpl. destruct (level_eqb (level it) (level ci)).
    + case_if; eauto.
    + destruct (getIdAtLevel it (level ci)) as [id|] eqn:Eid; [|eauto].
      destruct (extend_getIdAtLevel it ci id Eid) as [ci' [Eext Hord]].
      rewrite Eext. simpl. unfold put. simpl. rewrite String.eqb_refl. simpl.
      destruct (IH ci') as [child' Hchild]; [lia|].
      rewrite Hchild. simpl. eauto.
Qed.

Lemma height_unfold this :
  height this =
  S (fold_right (fun kv h => Nat.max (height (snd kv)) h) 0%nat
       (children this)).
Proof. now destruct this. Qed.

Lemma height_child this k c :
  In (k, c) (children this) -> (height c < height this)%nat.
Proof.
  rewrite (height_unfold this). generalize (children this).
  intros o. induction o as [|[k0 v0] o IH]; simpl; [tauto|].
  intros [[= -> ->] | Hin]; [lia|]. specialize (IH Hin). lia.
Qed.

Lemma _setOrToggle_returns it value :
  forall fuel this,
    (height this + levels <= fuel)%nat ->
    exists this', _setOrToggle fuel it value this = Some this'.
Proof.
  unfold levels.
  induction fuel as [|fuel IH]; intros this Hfuel; [lia|].
  simpl. destruct (level_eqb (level it) (level (item this))).
  - case_if; eauto.
  - destruct (getIdAtLevel it (level (item this))) as [id|] eqn:Eid;
      [|eauto].
    rewrite hasOwnProperty_get.
    destruct (get (children this) (key_of id)) as [child|] eqn:Eget.
    + simpl. rewrite Eget. simpl.
      pose proof (height_child this _ _ (get_In _ _ _ Eget)) as Hh.
      destruct (IH child) as [child' Hchild]; [lia|].
      rewrite Hchild. simpl. eauto.
    + destruct (extend_getIdAtLevel it (item this) id Eid)
        as [ci [Eext Hord]].
      rewrite Eext. simpl. rewrite get_put_same. simpl.
      destruct (_setOrToggle_new_returns it value fuel ci)
        as [child' Hchild].
      { pose proof (ordinal_range (level ci)).
        pose proof (height_unfold this). lia. }
      rewrite Hchild. simpl. eauto.
Qed.

Lemma set_returns it value this :
  exists this',
    set it value this = Some this' /\ SetOrToggle it (Some value) this this'.
Proof.
  destruct (_setOrToggle_returns it (Some value) (call_budget this) this)
    as [this' H]; [unfold call_budget; lia|].
  exists this'. split; [exact H|]. eapply _setOrToggle_sound; eauto.
Qed.

Lemma toggle_returns it this :
  exists this',
    toggle it this = Some this' /\ SetOrToggle it None this this'.
Proof.
  destruct (_setOrToggle_returns it None (call_budget this) this)
    as [this' H]; [unfold call_budget; lia|].
  exists this'. split; [exact H|]. eapply _setOrToggle_sound; eauto.
Qed.

Lemma set_sound it value this this' :
  set it value this = Some this' -> SetOrToggle it (Some value) this this'.
Proof. apply _setOrToggle_sound. Qed.

Lemma toggle_sound it this this' :
  toggle it this = Some this' -> SetOrToggle it None this this'.
Proof. apply _setOrToggle_sound. Qed.

(** ** The cached counts *)

Lemma maintained_node this :
  size_balanced this -> keys_unique this ->
  (forall kv, In kv (children this) -> maintained (snd kv)) ->
  maintained this.
Proof.
  intros Hs Hk Hc n Hn. apply in_nodes in Hn.
  destruct Hn as [-> | [kv [Hin Hn]]]; [now split|].
  exact (Hc kv Hin n Hn).
Qed.

Lemma maintained_child this kv :
  maintained this -> In kv (children this) -> maintained (snd kv).
Proof.
  intros H Hin n Hn. apply H. destruct kv as [k c].
  eapply nodes_child; eauto.
Qed.

Lemma maintained_sub this n :
  maintained this -> In n (nodes this) -> maintained n.
Proof. intros H Hn m Hm. apply H. eapply nodes_trans; eauto. Qed.

Lemma maintained_new it : maintained (new_SelectionTreeType it).
Proof.
  intros n [<- | []]. split.
  - reflexivity.
  - constructor.
Qed.

Lemma sum_sizes_assign o k child child' :
  get o k = Some child ->
  sum_sizes (assign o k child') = sum_sizes o - size child + size child'.
Proof.
  induction o as [|[k0 v0] o IH]; simpl; [discriminate|].
  destruct (String.eqb k0 k).
  - intros [= ->]. simpl. lia.
  - intros H. simpl. rewrite (IH H). lia.
Qed.

Lemma sum_sizes_create o k child' :
  sum_sizes (create o k child') = sum_sizes o + size child'.
Proof.
  induction o as [|[k0 v0] o IH]; simpl; [lia|].
  destruct (enumerated_before k k0); simpl; [lia|].
  rewrite IH. lia.
Qed.

Lemma sum_sizes_delete o k child :
  NoDup (map fst o) -> get o k = Some child ->
  sum_sizes (delete o k) = sum_sizes o - size child.
Proof.
  induction o as [|[k0 v0] o IH]; simpl; [discriminate|].
  intros Hnd. inversion Hnd as [|? ? Hnot Hnd']; subst.
  destruct (String.eqb k0 k) eqn:E; simpl.
  - apply String.eqb_eq in E. subst k0. intros [= ->].
    fold (delete o k). rewrite delete_absent; [lia|].
    now apply get_None_keys.
  - intros H. fold (delete o k). rewrite (IH Hnd' H). lia.
Qed.

Lemma SetOrToggle_maintained it value this this' :
  SetOrToggle it value this this' -> maintained this -> maintained this'.
Proof.
  induction 1 as [this El Hs | this El Hs | this El Eid
                 | this id child child' El Eid Eget Hrec IH
                 | this id ci child' El Eid Eget Eext Hrec IH];
    intros Hm; try exact Hm.
  - destruct (Hm this (nodes_self this)) as [Hb Hk].
    apply maintained_node.
    + unfold size_balanced in *. simpl. rewrite Hb.
      destruct (selected this); cbn [negb]; lia.
    + exact Hk.
    + intros kv Hin. now apply (maintained_child this).
  - destruct (Hm this (nodes_self this)) as [Hb Hk].
    pose proof (get_In _ _ _ Eget) as Hin.
    apply maintained_node.
    + unfold size_balanced in *. simpl. unfold put.
      rewrite hasOwnProperty_get, Eget.
      rewrite (sum_sizes_assign _ _ child child' Eget). rewrite Hb.
      destruct (selected this); lia.
    + unfold keys_unique in *. simpl. now apply NoDup_keys_put.
    + simpl. intros kv Hkv. apply In_put in Hkv.
      destruct Hkv as [-> | Hkv].
      * simpl. apply IH. apply (maintained_child this _ Hm Hin).
      * now apply (maintained_child this).
  - destruct (Hm this (nodes_self this)) as [Hb Hk].
    apply maintained_node.
    + unfold size_balanced in *. simpl. unfold put.
      rewrite hasOwnProperty_get, Eget.
      rewrite sum_sizes_create. rewrite Hb.
      destruct (selected this); lia.
    + unfold keys_unique in *. simpl. now apply NoDup_keys_put.
    + simpl. intros kv Hkv. apply In_put in Hkv.
      destruct Hkv as [-> | Hkv].
      * simpl. apply IH. apply maintained_new.
      * now apply (maintained_child this).
Qed.

Lemma clear_maintained this : maintained this -> maintained (clear this).
Proof.
  induction this as [this IH] using tree_induction.
  intros Hm. rewrite clear_unfold.
  destruct (Hm this (nodes_self this)) as [_ Hk].
  rewrite Forall_forall in IH.
  apply maintained_node.
  - unfold size_balanced. simpl.
    assert (Hsum : forall o,
      sum_sizes (map (fun kv => (fst kv, clear (snd kv))) o) = 0).
    { induction o as [|[k v] o IHo]; simpl; [reflexivity|].
      rewrite IHo. rewrite (clear_unfold v). reflexivity. }
    rewrite Hsum. reflexivity.
  - unfold keys_unique in *. simpl. rewrite map_map. simpl. exact Hk.
  - simpl. intros kv Hin. apply in_map_iff in Hin.
    destruct Hin as [kv0 [<- Hin]]. simpl.
    apply (IH kv0 Hin). now apply (maintained_child this).
Qed.

Lemma deleteChild_maintained id this :
  maintained this -> maintained (deleteChild id this).
Proof.
  intros Hm. unfold deleteChild. rewrite hasOwnProperty_get.
  destruct (get (children this) (key_of id)) as [child|] eqn:Eget;
    [|exact Hm].
  destruct (Hm this (nodes_self this)) as [Hb Hk].
  apply maintained_node.
  - unfold size_balanced in *. simpl.
    rewrite (sum_sizes_delete _ _ child Hk Eget). rewrite Hb.
    destruct (selected this); lia.
  - unfold keys_unique in *. simpl. now apply NoDup_keys_delete.
  - simpl. intros kv Hin. apply In_delete in Hin.
    now apply (maintained_child this).
Qed.

Lemma selected_count_unfold this :
  selected_count this =
  (if selected this then 1 else 0) +
  fold_right (fun kv acc => selected_count (snd kv) + acc) 0 (children this).
Proof.
  destruct this as [it s c z]. unfold selected_count. simpl.
  assert (Hc :
    Z.of_nat (List.length
      (filter selected (flat_map (fun kv => nodes (snd kv)) c))) =
    fold_right
      (fun kv acc => Z.of_nat (List.length (filter selected (nodes (snd kv))))
                     + acc) 0 c).
  { induction c as [|[k v] c IH]; simpl; [reflexivity|].
    rewrite filter_app, length_app, Nat2Z.inj_add, IH. reflexivity. }
  destruct s; simpl List.length; rewrite <- Hc; lia.
Qed.

Lemma maintained_size this : maintained this -> size this = selected_count this.
Proof.
  induction this as [this IH] using tree_induction.
  intros Hm. destruct (Hm this (nodes_self this)) as [Hb _].
  rewrite selected_count_unfold, Hb. f_equal.
  assert (Hc : forall kv, In kv (children this) ->
                 size (snd kv) = selected_count (snd kv)).
  { intros kv Hin. rewrite Forall_forall in IH. apply (IH kv Hin).
    now apply (maintained_child this). }
  clear IH Hm Hb. unfold sum_sizes.
  induction (children this) as [|kv o IHo]; simpl; [reflexivity|].
  rewrite (Hc kv (or_introl eq_refl)), IHo; [reflexivity|].
  intros kv' Hin. apply Hc. now right.
Qed.

Lemma perform_maintained op this :
  maintained this ->
  exists this', perform op this = Some this' /\ maintained this'.
Proof.
  intros Hm. destruct op as [it value | it | id |]; simpl.
  - destruct (set_returns it value this) as [this' [Hset Hrel]].
    exists this'. split; [exact Hset|].
    eapply SetOrToggle_maintained; eauto.
  - destruct (toggle_returns it this) as [this' [Htog Hrel]].
    exists this'. split; [exact Htog|].
    eapply SetOrToggle_maintained; eauto.
  - eexists. split; [reflexivity|]. now apply deleteChild_maintained.
  - eexists. split; [reflexivity|]. now apply clear_maintained.
Qed.

Lemma perform_all_maintained ops :
  forall this,
    maintained this ->
    exists this', perform_all ops this = Some this' /\ maintained this'.
Proof.
  induction ops as [|op ops IH]; intros this Hm; simpl.
  - eauto.
  - destruct (perform_maintained op this Hm) as [this1 [H1 Hm1]].
    rewrite H1. simpl. apply IH. exact Hm1.
Qed.


(** ** After clear *)

Lemma blank_has it this : blank this -> fst (has it this) = false.
Proof.
  intros Hb. destruct (fst (has it this)) eqn:E; [|reflexivity].
  destruct (has_answer it this E) as [n [Hn [Hs _]]].
  rewrite (proj1 (Hb n Hn)) in Hs. discriminate.
Qed.

Lemma blank_hasAnyParent it self this :
  blank this -> fst (hasAnyParent it self this) = false.
Proof.
  intros Hb. destruct (fst (hasAnyParent it self this)) eqn:E; [|reflexivity].
  destruct (hasAnyParent_answer it this self E) as [n [Hn [Hs _]]].
  rewrite (proj1 (Hb n Hn)) in Hs. discriminate.
Qed.

Lemma blank_hasAnyChildren it self ignoreIds this :
  blank this -> fst (hasAnyChildren it self ignoreIds this) = false.
Proof.
  intros Hb.
  destruct (fst (hasAnyChildren it self ignoreIds this)) eqn:E;
    [|reflexivity].
  destruct (hasAnyChildren_answer it ignoreIds this self E) as [n [Hn Hs]].
  rewrite (proj1 (Hb n Hn)) in Hs. discriminate.
Qed.


(** ** has *)

Lemma path_breaks_unfold it this :
  path_breaks it this =
  if level_eqb (level it) (level (item this)) then false
  else
    match getIdAtLevel it (level (item this)) with
    | Some id =>
        match
          call (fun c => (path_breaks it c, c)) (children this) (key_of id)
        with
        | Some (r, _) => r
        | None => true
        end
    | None => true
    end.
Proof. now destruct this. Qed.

Lemma path_breaks_has it this :
  path_breaks it this = true -> fst (has it this) = false.
Proof.
  induction this as [this IH] using tree_induction.
  rewrite path_breaks_unfold, has_unfold.
  destruct (level_eqb _ _); [discriminate|].
  destruct (getIdAtLevel _ _) as [id|]; [|reflexivity].
  rewrite !call_get.
  destruct (get _ _) as [c|] eqn:E; [|reflexivity].
  simpl. rewrite Forall_forall in IH.
  exact (IH _ (get_In _ _ _ E)).
Qed.



(** C10. [hasAnyParent] and [hasAnyChildren] leave the tree as it was, for
    every item, [self] and [ignoreIds]: no child is created or removed, no
    [selected] or [size] is changed. *)
Theorem ancestor_queries_read_only :
  forall (it : ListItem) (self : option bool) (ignoreIds : option (list Id))
         (this : SelectionTreeType),
    snd (hasAnyParent it self this) = this /\
    snd (hasAnyChildren it self ignoreIds this) = this.
Proof.
  intros it self ignoreIds this. split.
  - apply hasAnyParent_readonly.
  - apply hasAnyChildren_readonly.
Qed.

(** ** selectItem and hasAnyParent *)

(** [_setOrToggle] selects nothing but a node of the level of its item. *)
Lemma SetOrToggle_selected_level it value this this' :
  SetOrToggle it value this this' ->
  (forall n, In n (nodes this) -> selected n = true ->
             level_eqb (level it) (level (item n)) = true) ->
  forall n, In n (nodes this') -> selected n = true ->
            level_eqb (level it) (level (item n)) = true.
Proof.
  induction 1 as [this El Hs | this El Hs | this El Eid
                 | this id child child' El Eid Eget Hrec IH
                 | this id ci child' El Eid Eget Eext Hrec IH];
    intros Hall n Hn Hsel; try (now apply Hall).
  - apply in_nodes in Hn. destruct Hn as [-> | [kv [Hin Hn]]].
    + exact El.
    + simpl in Hin. apply Hall; [|exact Hsel].
      destruct kv. eapply nodes_child; eauto.
  - apply in_nodes in Hn. destruct Hn as [-> | [kv [Hin Hn]]].
    + simpl in Hsel. exact (Hall this (nodes_self this) Hsel).
    + simpl in Hin. apply In_put in Hin. destruct Hin as [-> | Hin].
      * simpl in Hn. apply IH; [|exact Hn | exact Hsel].
        intros m Hm. apply Hall.
        eapply nodes_child; [exact (get_In _ _ _ Eget) | exact Hm].
      * apply Hall; [|exact Hsel].
        destruct kv. eapply nodes_child; eauto.
  - apply in_nodes in Hn. destruct Hn as [-> | [kv [Hin Hn]]].
    + simpl in Hsel. exact (Hall this (nodes_self this) Hsel).
    + simpl in Hin. apply In_put in Hin. destruct Hin as [-> | Hin].
      * simpl in Hn. apply IH; [|exact Hn | exact Hsel].
        intros m [<- | []]. discriminate.
      * apply Hall; [|exact Hsel].
        destruct kv. eapply nodes_child; eauto.
Qed.


(** ** deleteChild *)

Lemma getIdAtLevel_root it fileId :
  getFileId it = Some fileId ->
  level_eqb (level it) ROOT = false /\
  getIdAtLevel it ROOT = Some (IdStr fileId).
Proof. destruct it; simpl; try discriminate; intros [= ->]; auto. Qed.



(** ** toggle twice *)

Lemma SetOrToggle_deterministic it value this a :
  SetOrToggle it value this a ->
  forall b, SetOrToggle it value this b -> a = b.
Proof.
  induction 1 as [this El Hs | this El Hs | this El Eid
                 | this id child child' El Eid Eget Hrec IH
                 | this id ci child' El Eid Eget Eext Hrec IH];
    intros b Hb; inversion Hb; subst; try congruence.
  - assert (id0 = id) by congruence. subst id0.
    assert (child0 = child) by congruence. subst child0.
    now rewrite (IH child'0).
  - assert (id0 = id) by congruence. subst id0.
    assert (child_item = ci) by congruence. subst child_item.
    now rewrite (IH child'0).
Qed.

Lemma restored_same this : restored this this.
Proof.
  induction this as [this IH] using tree_induction.
  constructor; try reflexivity.
  - intros k c Hget. exists c. split; [exact Hget|].
    rewrite Forall_forall in IH. exact (IH _ (get_In _ _ _ Hget)).
  - intros k c' Hnone Hsome. congruence.
Qed.

Lemma restored_size a b : restored a b -> size b = size a.
Proof. now destruct 1. Qed.

Lemma blank_new it : blank (new_SelectionTreeType it).
Proof. intros n [<- | []]. now split. Qed.

Lemma blank_child this kv :
  blank this -> In kv (children this) -> blank (snd kv).
Proof.
  intros Hb Hin n Hn. apply Hb. destruct kv. eapply nodes_child; eauto.
Qed.

(** Two calls of [toggle] in a row: the relation between the tree before
    and the tree after. *)
Lemma toggle_toggle it this this1 :
  SetOrToggle it None this this1 ->
  exists this2,
    SetOrToggle it None this1 this2 /\
    restored this this2 /\
    (blank this -> blank this2).
Proof.
  induction 1 as [this El Hs | this El Hs | this El Eid
                 | this id child child1 El Eid Eget Hrec IH
                 | this id ci child1 El Eid Eget Eext Hrec IH].
  - simpl in Hs. destruct (selected this); discriminate.
  - set (this1 := mkSelectionTree (item this) (negb (selected this))
                    (children this)
                    (size this + (if negb (selected this) then 1 else -1))).
    assert (H2 : SetOrToggle it None this1
                   (mkSelectionTree (item this1) (negb (selected this1))
                      (children this1)
                      (size this1
                       + (if negb (selected this1) then 1 else -1)))).
    { apply sot_flip; simpl; [exact El|].
      destruct (selected this); discriminate. }
    assert (Heq : mkSelectionTree (item this1) (negb (selected this1))
                    (children this1)
                    (size this1 + (if negb (selected this1) then 1 else -1))
                  = this).
    { destruct this as [i s c z]. simpl. f_equal.
      - apply negb_involutive.
      - destruct s; cbn [negb]; lia. }
    rewrite Heq in H2. exists this.
    split; [exact H2|]. split; [apply restored_same | auto].
  - exists this. split; [now apply sot_stop|].
    split; [apply restored_same | auto].
  - destruct IH as [child2 [Hrec2 [Hres Hblank]]].
    set (this1 := mkSelectionTree (item this) (selected this)
                    (put (children this) (key_of id) child1)
                    (size this - size child + size child1)).
    exists (mkSelectionTree (item this1) (selected this1)
              (put (children this1) (key_of id) child2)
              (size this1 - size child1 + size child2)).
    split; [|split].
    + apply (sot_down it None this1 id child1 child2); auto.
      simpl. apply get_put_same.
    + simpl. rewrite put_put. constructor; simpl; try reflexivity.
      * rewrite (restored_size _ _ Hres). lia.
      * intros k c Hk. rewrite get_put.
        destruct (String.eqb (key_of id) k) eqn:E.
        -- apply String.eqb_eq in E. subst k.
           exists child2. split; [reflexivity|]. congruence.
        -- exists c. split; [exact Hk | apply restored_same].
      * intros k c' Hnone. rewrite get_put.
        destruct (String.eqb (key_of id) k) eqn:E; [|congruence].
        apply String.eqb_eq in E. subst k. congruence.
    + intros Hb n Hn. apply in_nodes in Hn.
      destruct Hn as [-> | [kv [Hin Hn]]].
      * simpl. destruct (Hb this (nodes_self this)) as [Hs Hz].
        split; [exact Hs|]. rewrite (restored_size _ _ Hres). lia.
      * simpl in Hin. rewrite put_put in Hin. apply In_put in Hin.
        destruct Hin as [-> | Hin].
        -- simpl in Hn. apply Hblank; [|exact Hn].
           apply (blank_child this (key_of id, child) Hb).
           exact (get_In _ _ _ Eget).
        -- exact (blank_child this kv Hb Hin n Hn).
  - destruct IH as [child2 [Hrec2 [Hres Hblank]]].
    pose proof (Hblank (blank_new ci)) as Hb2.
    pose proof (restored_size _ _ Hres) as Hz2. simpl in Hz2.
    set (this1 := mkSelectionTree (item this) (selected this)
                    (put (children this) (key_of id) child1)
                    (size this - 0 + size child1)).
    exists (mkSelectionTree (item this1) (selected this1)
              (put (children this1) (key_of id) child2)
              (size this1 - size child1 + size child2)).
    split; [|split].
    + apply (sot_down it None this1 id child1 child2); auto.
      simpl. apply get_put_same.
    + simpl. rewrite put_put. constructor; simpl; try reflexivity.
      * lia.
      * intros k c Hk. rewrite get_put.
        destruct (String.eqb (key_of id) k) eqn:E.
        -- apply String.eqb_eq in E. subst k. congruence.
        -- exists c. split; [exact Hk | apply restored_same].
      * intros k c' Hnone. rewrite get_put.
        destruct (String.eqb (key_of id) k) eqn:E; [|congruence].
        intros [= <-]. exact Hb2.
    + intros Hb n Hn. apply in_nodes in Hn.
      destruct Hn as [-> | [kv [Hin Hn]]].
      * simpl. destruct (Hb this (nodes_self this)) as [Hs Hz].
        split; [exact Hs | lia].
      * simpl in Hin. rewrite put_put in Hin. apply In_put in Hin.
        destruct Hin as [-> | Hin].
        -- simpl in Hn. exact (Hb2 n Hn).
        -- exact (blank_child this kv Hb Hin n Hn).
Qed.


(** ** Items and their paths *)

Lemma ListItem_eqb_eq a b : ListItem_eqb a b = true <-> a = b.
Proof.
  destruct a, b; simpl; try (split; discriminate);
    rewrite ?andb_true_iff, ?String.eqb_eq, ?N.eqb_eq;
    (split; [intuition congruence | intros H; inversion H; subst; auto]).
Qed.

Lemma ListItem_eqb_refl a : ListItem_eqb a a = true.
Proof. now apply ListItem_eqb_eq. Qed.

Lemma ListItem_eqb_neq a b : ListItem_eqb a b = false <-> a <> b.
Proof.
  rewrite <- ListItem_eqb_eq. destruct (ListItem_eqb a b); intuition congruence.
Qed.

Lemma to_uint_nonnil n : N.to_uint n <> Nil.
Proof.
  destruct n; simpl; [discriminate|].
  apply DecimalPos.Unsigned.to_uint_nonnil.
Qed.

Lemma key_of_number n :
  NilZero.uint_of_string (key_of (IdNum n)) = Some (N.to_uint n).
Proof. simpl. apply NilZero.usu. apply to_uint_nonnil. Qed.

Lemma key_of_number_inj n m : key_of (IdNum n) = key_of (IdNum m) -> n = m.
Proof.
  intros H. apply DecimalN.Unsigned.to_uint_inj.
  pose proof (key_of_number n) as Hn. rewrite H, key_of_number in Hn.
  congruence.
Qed.

Lemma key_of_number_waypoints n : key_of (IdNum n) <> "waypoints".
Proof.
  intros H. pose proof (key_of_number n) as Hn. rewrite H in Hn.
  discriminate.
Qed.

(** Two identifiers that extend the same item and have the same key are the
    same identifier. *)
Lemma extend_key_inj p a b ca cb :
  extend p a = Some ca -> extend p b = Some cb ->
  key_of a = key_of b -> a = b.
Proof.
  destruct p, a as [sa|na], b as [sb|nb]; simpl; try discriminate;
    intros Ha Hb Hk;
    try (destruct (String.eqb sa "waypoints") eqn:Ea; [|discriminate];
         apply String.eqb_eq in Ea; subst sa);
    try (destruct (String.eqb sb "waypoints") eqn:Eb; [|discriminate];
         apply String.eqb_eq in Eb; subst sb);
    try congruence;
    try (f_equal; now apply key_of_number_inj);
    try (exfalso; now apply (key_of_number_waypoints nb));
    try (exfalso; symmetry in Hk; now apply (key_of_number_waypoints na)).
Qed.

Lemma ancestors_self it : In it (ancestors it).
Proof. destruct it; simpl; tauto. Qed.

Lemma ancestors_root it : In ListRootItem (ancestors it).
Proof. destruct it; simpl; tauto. Qed.

(** An ancestor of the level of the item is the item. *)
Lemma ancestors_same_level it n :
  In n (ancestors it) -> level_eqb (level it) (level n) = true -> n = it.
Proof.
  destruct it; simpl; intros H;
    repeat (destruct H as [<- | H]; [simpl; try discriminate; auto|]);
    contradiction.
Qed.

(** At an ancestor of another level the item gives an identifier, which
    extends the ancestor into the next one. *)
Lemma ancestors_step it n :
  In n (ancestors it) -> level_eqb (level it) (level n) = false ->
  exists id c,
    getIdAtLevel it (level n) = Some id /\
    extend n id = Some c /\ In c (ancestors it).
Proof.
  destruct it; simpl; intros H;
    repeat (destruct H as [<- | H];
            [simpl; try discriminate; intros _; eexists; eexists;
             (split; [reflexivity | split; [reflexivity | simpl; tauto]])|]);
    contradiction.
Qed.

Lemma extend_last_id p id c : extend p id = Some c -> last_id c = Some id.
Proof.
  destruct p, id as [s|n]; simpl; try discriminate;
    try (destruct (String.eqb s "waypoints") eqn:E; [|discriminate];
         apply String.eqb_eq in E; subst s);
    now intros [= <-].
Qed.

(** The ancestors of an extended item are those of the item, and itself. *)
Lemma extend_ancestors p id c x :
  extend p id = Some c -> In c (ancestors x) -> In p (ancestors x).
Proof.
  intros He Hin.
  destruct p, id as [s|n]; simpl in He; try discriminate;
    try (destruct (String.eqb s "waypoints") eqn:E; [|discriminate]);
    injection He as <-;
    destruct x; simpl in *;
    repeat (destruct Hin as [Hin | Hin];
            [try discriminate; inversion Hin; subst; tauto|]);
    try contradiction.
Qed.

Lemma extend_level p id c :
  extend p id = Some c -> level_eqb (level p) (level c) = false.
Proof.
  destruct p, id as [s|n]; simpl; try discriminate;
    try (destruct (String.eqb s "waypoints") eqn:E; [|discriminate]);
    now intros [= <-].
Qed.

Lemma extend_not_ancestor p id c : extend p id = Some c -> ~ In c (ancestors p).
Proof.
  intros He Hin.
  destruct p, id as [s|n]; simpl in He; try discriminate;
    try (destruct (String.eqb s "waypoints") eqn:E; [|discriminate]);
    injection He as <-; simpl in Hin;
    repeat (destruct Hin as [Hin | Hin]; [discriminate|]);
    contradiction.
Qed.

Lemma ancestors_one_child p a b ca cb x :
  extend p a = Some ca -> extend p b = Some cb ->
  In ca (ancestors x) -> In cb (ancestors x) -> a = b.
Proof.
  intros Ha Hb Hina Hinb.
  assert (ca = cb).
  { destruct p, a as [sa|na], b as [sb|nb]; simpl in Ha, Hb;
      try discriminate;
      try (destruct (String.eqb sa "waypoints"); [|discriminate]);
      try (destruct (String.eqb sb "waypoints"); [|discriminate]);
      injection Ha as <-; injection Hb as <-;
      destruct x; simpl in Hina, Hinb;
      repeat (destruct Hina as [Hina | Hina]; [try discriminate|]);
      try contradiction;
      repeat (destruct Hinb as [Hinb | Hinb]; [try discriminate|]);
      try contradiction; congruence. }
  subst cb. apply extend_last_id in Ha. apply extend_last_id in Hb.
  congruence.
Qed.

(** ** Trees whose children are linked to their parents *)

Lemma linked_node this :
  Forall (child_linked (item this)) (children this) ->
  (forall kv, In kv (children this) -> linked (snd kv)) ->
  linked this.
Proof.
  intros Hl Hc n Hn. apply in_nodes in Hn.
  destruct Hn as [-> | [kv [Hin Hn]]]; [exact Hl|].
  exact (Hc kv Hin n Hn).
Qed.

Lemma linked_child this kv :
  linked this -> In kv (children this) -> linked (snd kv).
Proof.
  intros H Hin n Hn. apply H. destruct kv as [k c].
  eapply nodes_child; eauto.
Qed.

Lemma linked_new it : linked (new_SelectionTreeType it).
Proof. intros n [<- | []]. constructor. Qed.

Lemma linked_get this k c :
  linked this -> get (children this) k = Some c ->
  exists id, key_of id = k /\ extend (item this) id = Some (item c).
Proof.
  intros Hl Hget. pose proof (Hl this (nodes_self this)) as Hall.
  rewrite Forall_forall in Hall.
  exact (Hall (k, c) (get_In _ _ _ Hget)).
Qed.

Lemma SetOrToggle_item it value this this' :
  SetOrToggle it value this this' -> item this' = item this.
Proof. now destruct 1. Qed.

Lemma SetOrToggle_linked it value this this' :
  SetOrToggle it value this this' -> linked this -> linked this'.
Proof.
  induction 1 as [this El Hs | this El Hs | this El Eid
                 | this id child child' El Eid Eget Hrec IH
                 | this id ci child' El Eid Eget Eext Hrec IH];
    intros Hl; try exact Hl.
  - apply linked_node; simpl.
    + exact (Hl this (nodes_self this)).
    + intros kv Hin. now apply (linked_child this).
  - pose proof (get_In _ _ _ Eget) as Hin.
    apply linked_node; simpl.
    + apply Forall_forall. intros kv Hkv. apply In_put in Hkv.
      destruct Hkv as [-> | Hkv].
      * destruct (linked_get this _ _ Hl Eget) as [id0 [Hk He]].
        exists id0. simpl. split; [exact Hk|].
        now rewrite (SetOrToggle_item _ _ _ _ Hrec).
      * pose proof (Hl this (nodes_self this)) as Hall.
        rewrite Forall_forall in Hall. now apply Hall.
    + intros kv Hkv. apply In_put in Hkv. destruct Hkv as [-> | Hkv].
      * simpl. apply IH. exact (linked_child this _ Hl Hin).
      * now apply (linked_child this).
  - apply linked_node; simpl.
    + apply Forall_forall. intros kv Hkv. apply In_put in Hkv.
      destruct Hkv as [-> | Hkv].
      * exists id. simpl. split; [reflexivity|].
        now rewrite (SetOrToggle_item _ _ _ _ Hrec).
      * pose proof (Hl this (nodes_self this)) as Hall.
        rewrite Forall_forall in Hall. now apply Hall.
    + intros kv Hkv. apply In_put in Hkv. destruct Hkv as [-> | Hkv].
      * simpl. apply IH. apply linked_new.
      * now apply (linked_child this).
Qed.

(** The child met on the way to an item lies on the path of the item. *)
Lemma descend_child it this id child :
  linked this -> In (item this) (ancestors it) ->
  level_eqb (level it) (level (item this)) = false ->
  getIdAtLevel it (level (item this)) = Some id ->
  get (children this) (key_of id) = Some child ->
  In (item child) (ancestors it).
Proof.
  intros Hl Hanc El Eid Eget.
  destruct (ancestors_step it (item this) Hanc El) as [id' [c [Hid [He Hc]]]].
  assert (id' = id) by congruence. subst id'.
  destruct (linked_get this _ _ Hl Eget) as [id0 [Hk He0]].
  assert (id0 = id) by (eapply extend_key_inj; eauto). subst id0.
  congruence.
Qed.

Lemma descend_new it this id ci :
  In (item this) (ancestors it) ->
  level_eqb (level it) (level (item this)) = false ->
  getIdAtLevel it (level (item this)) = Some id ->
  extend (item this) id = Some ci ->
  In ci (ancestors it).
Proof.
  intros Hanc El Eid Eext.
  destruct (ancestors_step it (item this) Hanc El) as [id' [c [Hid [He Hc]]]].
  congruence.
Qed.

Lemma has_here it this :
  level_eqb (level it) (level (item this)) = true ->
  fst (has it this) = selected this.
Proof. intros El. rewrite has_unfold, El. reflexivity. Qed.

Lemma has_descend it this id :
  level_eqb (level it) (level (item this)) = false ->
  getIdAtLevel it (level (item this)) = Some id ->
  fst (has it this) =
  match get (children this) (key_of id) with
  | Some c => fst (has it c)
  | None => false
  end.
Proof.
  intros El Eid. rewrite has_unfold, El, Eid, call_get.
  now destruct (get (children this) (key_of id)).
Qed.

Lemma has_new it ci : fst (has it (new_SelectionTreeType ci)) = false.
Proof. apply blank_has. apply blank_new. Qed.

Lemma level_eqb_refl l : level_eqb l l = true.
Proof. apply Z.eqb_refl. Qed.

Lemma level_eqb_item a b : a = b -> level_eqb (level a) (level b) = true.
Proof. intros ->. apply level_eqb_refl. Qed.

(** What [has] answers after [set(i, v)], for every item. *)
Lemma has_after_set i v this this' :
  SetOrToggle i (Some v) this this' ->
  linked this -> In (item this) (ancestors i) ->
  forall j, In (item this) (ancestors j) ->
    fst (has j this') = if ListItem_eqb i j then v else fst (has j this).
Proof.
  induction 1 as [this El Hs | this El Hs | this El Eid
                 | this id child child' El Eid Eget Hrec IH
                 | this id ci child' El Eid Eget Eext Hrec IH];
    intros Hl Hi j Hj.
  - simpl in Hs.
    destruct (ListItem_eqb i j) eqn:Eij; [|reflexivity].
    apply ListItem_eqb_eq in Eij. subst j.
    rewrite (has_here i this El). exact Hs.
  - simpl in Hs.
    pose proof (ancestors_same_level i _ Hi El) as Hit.
    destruct (ListItem_eqb i j) eqn:Eij.
    + apply ListItem_eqb_eq in Eij. subst j.
      rewrite has_here by exact El. simpl.
      destruct (selected this), v; simpl; congruence.
    + apply ListItem_eqb_neq in Eij.
      destruct (level_eqb (level j) (level (item this))) eqn:Elj.
      * pose proof (ancestors_same_level j _ Hj Elj). congruence.
      * destruct (ancestors_step j _ Hj Elj) as [idj [c [Hid _]]].
        rewrite (has_descend j _ idj) by (simpl; assumption).
        rewrite (has_descend j this idj) by assumption.
        reflexivity.
  - destruct (ancestors_step i _ Hi El) as [id' [c [Hid _]]]. congruence.
  - destruct (level_eqb (level j) (level (item this))) eqn:Elj.
    + rewrite !has_here by (simpl; assumption). simpl.
      destruct (ListItem_eqb i j) eqn:Eij; [|reflexivity].
      apply ListItem_eqb_eq in Eij. subst j. congruence.
    + destruct (ancestors_step j _ Hj Elj) as [idj [cj [Hidj [Hej Hcj]]]].
      rewrite (has_descend j _ idj) by (simpl; assumption).
      rewrite (has_descend j this idj) by assumption.
      simpl. rewrite get_put.
      destruct (ancestors_step i _ Hi El) as [idi [c [Hidi [Hei Hci]]]].
      assert (idi = id) by congruence. subst idi.
      destruct (String.eqb (key_of id) (key_of idj)) eqn:Ek.
      * apply String.eqb_eq in Ek.
        assert (idj = id) by (symmetry; eapply extend_key_inj; eauto).
        subst idj. rewrite Eget.
        apply IH.
        -- exact (linked_child this _ Hl (get_In _ _ _ Eget)).
        -- eapply descend_child; eauto.
        -- eapply descend_child; eauto.
      * destruct (ListItem_eqb i j) eqn:Eij; [|reflexivity].
        apply ListItem_eqb_eq in Eij. subst j.
        assert (idj = id) by congruence. subst idj.
        rewrite String.eqb_refl in Ek. discriminate.
  - destruct (level_eqb (level j) (level (item this))) eqn:Elj.
    + rewrite !has_here by (simpl; assumption). simpl.
      destruct (ListItem_eqb i j) eqn:Eij; [|reflexivity].
      apply ListItem_eqb_eq in Eij. subst j. congruence.
    + destruct (ancestors_step j _ Hj Elj) as [idj [cj [Hidj [Hej Hcj]]]].
      rewrite (has_descend j _ idj) by (simpl; assumption).
      rewrite (has_descend j this idj) by assumption.
      simpl. rewrite get_put.
      destruct (String.eqb (key_of id) (key_of idj)) eqn:Ek.
      * apply String.eqb_eq in Ek.
        assert (idj = id) by (symmetry; eapply extend_key_inj; eauto).
        subst idj. rewrite Eget.
        rewrite (IH (linked_new ci)).
        -- now rewrite has_new.
        -- cbn [item new_SelectionTreeType]. eapply descend_new; eauto.
        -- cbn [item new_SelectionTreeType]. congruence.
      * destruct (ListItem_eqb i j) eqn:Eij; [|reflexivity].
        apply ListItem_eqb_eq in Eij. subst j.
        assert (idj = id) by congruence. subst idj.
        rewrite String.eqb_refl in Ek. discriminate.
Qed.

(** What [set(i, v)] does to [size]. *)
Lemma size_after_set i v this this' :
  SetOrToggle i (Some v) this this' ->
  linked this -> In (item this) (ancestors i) ->
  size this' =
  size this + (if v then 1 else 0) - (if fst (has i this) then 1 else 0).
Proof.
  induction 1 as [this El Hs | this El Hs | this El Eid
                 | this id child child' El Eid Eget Hrec IH
                 | this id ci child' El Eid Eget Eext Hrec IH];
    intros Hl Hi.
  - simpl in Hs. rewrite (has_here i this El), <- Hs.
    destruct (selected this); lia.
  - simpl in Hs. rewrite (has_here i this El). simpl.
    destruct (selected this), v; cbn [negb]; try congruence; lia.
  - destruct (ancestors_step i _ Hi El) as [id' [c [Hid _]]]. congruence.
  - simpl. rewrite (has_descend i this id El Eid), Eget.
    rewrite IH; [lia | |].
    + exact (linked_child this _ Hl (get_In _ _ _ Eget)).
    + eapply descend_child; eauto.
  - simpl. rewrite (has_descend i this id El Eid), Eget.
    rewrite (IH (linked_new ci)).
    + rewrite has_new. cbn [size new_SelectionTreeType]. lia.
    + cbn [item new_SelectionTreeType]. eapply descend_new; eauto.
Qed.

(** ** Well-formed trees *)

Lemma distinct_NoDup keys : distinct keys = true -> NoDup keys.
Proof.
  induction keys as [|k keys IH]; simpl; intros H; [constructor|].
  apply andb_prop in H. destruct H as [Hk Hd].
  constructor; [|now apply IH].
  intros Hin. apply negb_true_iff in Hk.
  assert (existsb (String.eqb k) keys = true); [|congruence].
  apply existsb_exists. exists k. split; [exact Hin | apply String.eqb_refl].
Qed.

Lemma child_linkedb_linked parent kv :
  child_linkedb parent kv = true -> child_linked parent kv.
Proof.
  unfold child_linkedb, child_linked.
  destruct (last_id (item (snd kv))) as [id|]; [|discriminate].
  intros H. apply andb_prop in H. destruct H as [Hk He].
  apply String.eqb_eq in Hk.
  destruct (extend parent id) as [c|] eqn:E; [|discriminate].
  apply ListItem_eqb_eq in He. subst c. eauto.
Qed.

Lemma well_formed_spec this :
  well_formed this = true ->
  item this = ListRootItem /\ maintained this /\ linked this.
Proof.
  unfold well_formed. intros H. apply andb_prop in H.
  destruct H as [Hroot Hall]. apply ListItem_eqb_eq in Hroot.
  rewrite forallb_forall in Hall.
  split; [exact Hroot|]. split.
  - intros n Hn. specialize (Hall n Hn). unfold node_formed in Hall.
    apply andb_prop in Hall. destruct Hall as [Hall Hsize].
    apply andb_prop in Hall. destruct Hall as [_ Hkeys].
    split.
    + now apply Z.eqb_eq in Hsize.
    + now apply distinct_NoDup.
  - intros n Hn. specialize (Hall n Hn). unfold node_formed in Hall.
    apply andb_prop in Hall. destruct Hall as [Hall _].
    apply andb_prop in Hall. destruct Hall as [Hlinks _].
    rewrite forallb_forall in Hlinks. apply Forall_forall.
    intros kv Hkv. apply child_linkedb_linked. now apply Hlinks.
Qed.

Lemma clear_item this : item (clear this) = item this.
Proof. now destruct this. Qed.

Lemma clear_linked this : linked this -> linked (clear this).
Proof.
  induction this as [this IH] using tree_induction.
  intros Hl. rewrite clear_unfold. rewrite Forall_forall in IH.
  pose proof (Hl this (nodes_self this)) as Hall.
  rewrite Forall_forall in Hall.
  apply linked_node; simpl.
  - apply Forall_forall. intros kv Hin. apply in_map_iff in Hin.
    destruct Hin as [kv0 [<- Hin]].
    destruct (Hall kv0 Hin) as [id [Hk He]].
    exists id. simpl. split; [exact Hk|]. now rewrite clear_item.
  - intros kv Hin. apply in_map_iff in Hin.
    destruct Hin as [kv0 [<- Hin]]. simpl.
    apply (IH kv0 Hin). now apply (linked_child this).
Qed.

Lemma deleteChild_linked id this : linked this -> linked (deleteChild id this).
Proof.
  intros Hl. unfold deleteChild. rewrite hasOwnProperty_get.
  destruct (get (children this) (key_of id)) as [child|]; [|exact Hl].
  pose proof (Hl this (nodes_self this)) as Hall.
  rewrite Forall_forall in Hall.
  apply linked_node; simpl.
  - apply Forall_forall. intros kv Hin. apply In_delete in Hin.
    now apply Hall.
  - intros kv Hin. apply In_delete in Hin. now apply (linked_child this).
Qed.

Lemma deleteChild_item id this : item (deleteChild id this) = item this.
Proof.
  unfold deleteChild. destruct (hasOwnProperty _ _); [|reflexivity].
  now destruct (get _ _).
Qed.

(** The trees that the operations build from the initial one are rooted at
    the root item, maintained and linked. *)
Lemma perform_all_formed ops :
  forall this,
    item this = ListRootItem -> maintained this -> linked this ->
    exists this',
      perform_all ops this = Some this' /\
      item this' = ListRootItem /\ maintained this' /\ linked this'.
Proof.
  induction ops as [|op ops IH]; intros this Hr Hm Hl; simpl.
  - eauto.
  - assert (Hstep : exists this1,
              perform op this = Some this1 /\
              item this1 = ListRootItem /\ maintained this1 /\ linked this1).
    { destruct op as [it value | it | id |]; simpl.
      - destruct (set_returns it value this) as [this1 [Hset Hrel]].
        exists this1. split; [exact Hset|]. split; [|split].
        + now rewrite (SetOrToggle_item _ _ _ _ Hrel).
        + eapply SetOrToggle_maintained; eauto.
        + eapply SetOrToggle_linked; eauto.
      - destruct (toggle_returns it this) as [this1 [Htog Hrel]].
        exists this1. split; [exact Htog|]. split; [|split].
        + now rewrite (SetOrToggle_item _ _ _ _ Hrel).
        + eapply SetOrToggle_maintained; eauto.
        + eapply SetOrToggle_linked; eauto.
      - eexists. split; [reflexivity|]. split; [|split].
        + now rewrite deleteChild_item.
        + now apply deleteChild_maintained.
        + now apply deleteChild_linked.
      - eexists. split; [reflexivity|]. split; [|split].
        + now rewrite clear_item.
        + now apply clear_maintained.
        + now apply clear_linked. }
    destruct Hstep as [this1 [H1 [Hr1 [Hm1 Hl1]]]].
    rewrite H1. simpl. now apply IH.
Qed.

(** ** set then has *)



(** ** has and getSelected agree *)

Lemma In_get {T : Type} (o : list (string * T)) k v :
  NoDup (map fst o) -> In (k, v) o -> get o k = Some v.
Proof.
  induction o as [|[k0 v0] o IH]; simpl; [tauto|].
  intros Hnd. inversion Hnd as [|? ? Hnot Hnd']; subst.
  intros [[= -> ->] | Hin].
  - now rewrite String.eqb_refl.
  - destruct (String.eqb k0 k) eqn:E.
    + apply String.eqb_eq in E. subst k0. exfalso. apply Hnot.
      apply in_map_iff. exists (k, v). auto.
    + now apply IH.
Qed.

Lemma selected_items_In this x :
  In x (selected_items this) <->
  exists n, In n (nodes this) /\ selected n = true /\ item n = x.
Proof.
  unfold selected_items. rewrite in_map_iff. split.
  - intros [n [Hx Hn]]. apply filter_In in Hn. exists n. tauto.
  - intros [n [Hn [Hs Hx]]]. exists n. split; [exact Hx|].
    apply filter_In. tauto.
Qed.

Lemma has_selected_items j this :
  linked this -> In (item this) (ancestors j) ->
  fst (has j this) = true -> In j (selected_items this).
Proof.
  induction this as [this IH] using tree_induction.
  intros Hl Hj Hhas. rewrite Forall_forall in IH.
  destruct (level_eqb (level j) (level (item this))) eqn:El.
  - rewrite (has_here j this El) in Hhas.
    apply selected_items_In. exists this.
    split; [apply nodes_self|]. split; [exact Hhas|].
    now apply ancestors_same_level.
  - destruct (ancestors_step j _ Hj El) as [id [c [Hid _]]].
    rewrite (has_descend j this id El Hid) in Hhas.
    destruct (get (children this) (key_of id)) as [child|] eqn:Eget;
      [|discriminate].
    pose proof (get_In _ _ _ Eget) as Hin.
    assert (Hc : In j (selected_items child)).
    { apply (IH _ Hin); [|eapply descend_child; eauto | exact Hhas].
      exact (linked_child this _ Hl Hin). }
    apply selected_items_In in Hc. destruct Hc as [n [Hn Hrest]].
    apply selected_items_In. exists n. split; [|exact Hrest].
    eapply nodes_child; eauto.
Qed.

Lemma node_has this :
  maintained this -> linked this ->
  forall n, In n (nodes this) ->
    In (item this) (ancestors (item n)) /\
    fst (has (item n) this) = selected n.
Proof.
  induction this as [this IH] using tree_induction.
  intros Hm Hl n Hn. rewrite Forall_forall in IH.
  apply in_nodes in Hn. destruct Hn as [-> | [[k c] [Hin Hn]]].
  - split; [apply ancestors_self|].
    apply has_here. apply level_eqb_refl.
  - simpl in Hn.
    destruct (IH _ Hin (maintained_child this _ Hm Hin)
                (linked_child this _ Hl Hin) n Hn) as [Hanc Hhas].
    simpl in Hanc, Hhas.
    pose proof (Hl this (nodes_self this)) as Hall.
    rewrite Forall_forall in Hall.
    destruct (Hall _ Hin) as [id0 [Hk He0]]. simpl in Hk, He0.
    assert (Hthis : In (item this) (ancestors (item n)))
      by (eapply extend_ancestors; eauto).
    split; [exact Hthis|].
    destruct (level_eqb (level (item n)) (level (item this))) eqn:El.
    + pose proof (ancestors_same_level _ _ Hthis El) as Heq.
      rewrite <- Heq in Hanc.
      exfalso. exact (extend_not_ancestor _ _ _ He0 Hanc).
    + destruct (ancestors_step _ _ Hthis El) as [id [c' [Hid [He Hc']]]].
      assert (id0 = id) by (eapply ancestors_one_child; eauto). subst id0.
      rewrite (has_descend _ this id El Hid).
      destruct (Hm this (nodes_self this)) as [_ Hkeys].
      rewrite Hk. rewrite (In_get _ _ _ Hkeys Hin). exact Hhas.
Qed.

(** On a tree rooted at the root item, maintained and linked, the items that
    [getSelected()] lists are those of which [has] is true. *)
Lemma getSelected_has this x :
  item this = ListRootItem -> maintained this -> linked this ->
  (In x (getSelected None this) <-> fst (has x this) = true).
Proof.
  intros Hr Hm Hl. rewrite getSelected_None. split.
  - intros Hx. apply selected_items_In in Hx.
    destruct Hx as [n [Hn [Hs <-]]].
    destruct (node_has this Hm Hl n Hn) as [_ Hhas]. congruence.
  - apply has_selected_items; [exact Hl|].
    rewrite Hr. apply ancestors_root.
Qed.

(** ** selectAll *)

Lemma last_cons_default {A : Type} (l : list A) :
  forall a d d', last (a :: l) d = last (a :: l) d'.
Proof.
  induction l as [|b l IH]; intros a d d'; [reflexivity|].
  change (last (b :: l) d = last (b :: l) d'). apply IH.
Qed.

Lemma fold_left_last {A : Type} (l : list A) (d : A) :
  fold_left (fun _ x => x) l d = last l d.
Proof.
  revert d. induction l as [|a l IH]; intros d; [reflexivity|].
  cbn [fold_left]. rewrite IH.
  destruct l as [|b l]; [reflexivity|].
  change (last (b :: l) a = last (b :: l) d). apply last_cons_default.
Qed.

Lemma forEach_last selection :
  forEach (fun i _ => i) selection ListRootItem = last_selected selection.
Proof.
  rewrite forEach_items. unfold last_selected. rewrite getSelected_None.
  apply fold_left_last.
Qed.

Lemma array_forEach_indices {A : Type} (mk : N -> ListItem) (array : list A) :
  forall i s,
    array_forEach (fun _ index sel => select (mk index) sel) array i s =
    fold_left (fun sel x => select x sel)
      (map mk (indices i (List.length array))) s.
Proof.
  induction array as [|a array IH]; intros i s; simpl; [reflexivity|].
  apply IH.
Qed.

Lemma fold_left_files (fileObservers : FileObservers) s :
  fold_left (fun sel entry => select (ListFileItem (fst entry)) sel)
    fileObservers s =
  fold_left (fun sel x => select x sel)
    (map (fun entry => ListFileItem (fst entry)) fileObservers) s.
Proof.
  revert s. induction fileObservers as [|e fo IH]; intros s; simpl;
    [reflexivity | apply IH].
Qed.

(** [selectAll] is: clear or not, then select the items of the level. *)
Lemma selectAll_fold fileObservers selection :
  track_present fileObservers (last_selected selection) = true ->
  selectAll fileObservers selection =
  fold_left (fun sel x => select x sel)
    (level_items fileObservers (last_selected selection))
    (Some (if clears (last_selected selection) then clear selection
           else selection)).
Proof.
  unfold selectAll. rewrite forEach_last.
  destruct (last_selected selection) as [|f|f t|f t s|f|f w]; simpl.
  - intros _. apply fold_left_files.
  - intros _. apply fold_left_files.
  - intros _. destruct (map_get fileObservers f) as [[file|]|];
      try reflexivity.
    apply (array_forEach_indices (ListTrackItem f)).
  - destruct (map_get fileObservers f) as [[file|]|]; try reflexivity.
    destruct (nth_error (trk file) (N.to_nat t)) as [track|];
      [|discriminate].
    intros _. simpl.
    apply (array_forEach_indices (ListTrackSegmentItem f t)).
  - reflexivity.
  - intros _. destruct (map_get fileObservers f) as [[file|]|];
      try reflexivity.
    apply (array_forEach_indices (ListWaypointItem f)).
Qed.

Lemma existsb_ListItem_eqb x l :
  existsb (ListItem_eqb x) l = true <-> In x l.
Proof.
  rewrite existsb_exists. split.
  - intros [y [Hy He]]. apply ListItem_eqb_eq in He. now subst.
  - intros H. exists x. split; [exact H | apply ListItem_eqb_refl].
Qed.

(** A run of [set(x, true)] over a list of items. *)
Lemma select_list items :
  forall this,
    item this = ListRootItem -> maintained this -> linked this ->
    exists this',
      fold_left (fun sel x => select x sel) items (Some this) = Some this' /\
      item this' = ListRootItem /\ maintained this' /\ linked this' /\
      (forall x, fst (has x this') =
                 (existsb (ListItem_eqb x) items || fst (has x this))%bool) /\
      (NoDup items ->
       size this' =
       size this +
       Z.of_nat (List.length
                   (filter (fun x => negb (fst (has x this))) items))).
Proof.
  induction items as [|a items IH]; intros this Hr Hm Hl; simpl.
  - exists this. split; [reflexivity|]. split; [exact Hr|].
    split; [exact Hm|]. split; [exact Hl|].
    split; [reflexivity | intros _; lia].
  - destruct (set_returns a true this) as [this1 [H1 R1]].
    rewrite H1.
    assert (Hr1 : item this1 = ListRootItem)
      by now rewrite (SetOrToggle_item _ _ _ _ R1).
    assert (Hm1 : maintained this1)
      by (eapply SetOrToggle_maintained; eauto).
    assert (Hl1 : linked this1) by (eapply SetOrToggle_linked; eauto).
    assert (Hroot : forall x, In (item this) (ancestors x))
      by (intros x; rewrite Hr; apply ancestors_root).
    assert (Hhas1 : forall x,
              fst (has x this1) =
              if ListItem_eqb a x then true else fst (has x this))
      by (intros x; eapply has_after_set; eauto).
    destruct (IH this1 Hr1 Hm1 Hl1)
      as [this' [Hfold [Hr' [Hm' [Hl' [Hhas Hsize]]]]]].
    exists this'. split; [exact Hfold|].
    split; [exact Hr'|]. split; [exact Hm'|]. split; [exact Hl'|]. split.
    + intros x. rewrite Hhas, Hhas1.
      destruct (ListItem_eqb x a) eqn:Exa.
      * apply ListItem_eqb_eq in Exa. subst x.
        rewrite ListItem_eqb_refl. simpl. apply orb_true_r.
      * assert (Eax : ListItem_eqb a x = false).
        { apply ListItem_eqb_neq. apply ListItem_eqb_neq in Exa. congruence. }
        rewrite Eax. reflexivity.
    + intros Hnd. inversion Hnd as [|? ? Hnot Hnd']; subst.
      rewrite (Hsize Hnd').
      rewrite (size_after_set a true this this1 R1 Hl (Hroot a)).
      assert (Hfilter :
        filter (fun x => negb (fst (has x this1))) items =
        filter (fun x => negb (fst (has x this))) items).
      { apply filter_ext_in. intros x Hx. rewrite Hhas1.
        destruct (ListItem_eqb a x) eqn:Eax; [|reflexivity].
        apply ListItem_eqb_eq in Eax. subst x. contradiction. }
      rewrite Hfilter.
      destruct (fst (has a this)); simpl List.length; lia.
Qed.

Lemma In_indices j n : forall i, In j (indices i n) <-> (i <= j < i + N.of_nat n)%N.
Proof.
  induction n as [|n IH]; intros i; simpl indices.
  - simpl. lia.
  - simpl In. rewrite IH. lia.
Qed.

Lemma NoDup_indices n : forall i, NoDup (indices i n).
Proof.
  induction n as [|n IH]; intros i; simpl; constructor; [|apply IH].
  rewrite In_indices. lia.
Qed.

Lemma NoDup_map_inj {A B : Type} (f : A -> B) l :
  (forall a b, f a = f b -> a = b) -> NoDup l -> NoDup (map f l).
Proof.
  intros Hinj. induction 1 as [|a l Hnot Hnd IH]; simpl; constructor;
    [|exact IH].
  intros Hin. apply in_map_iff in Hin. destruct Hin as [b [Hb Hin]].
  apply Hinj in Hb. now subst.
Qed.

(** Among distinct items of which exactly [a] passes a test, all but one
    fail it. *)
Lemma filter_all_but_one {A : Type} (p : A -> bool) (a : A) l :
  NoDup l -> In a l -> (forall x, In x l -> (p x = true <-> x = a)) ->
  S (List.length (filter (fun x => negb (p x)) l)) = List.length l.
Proof.
  induction 1 as [|b l Hnot Hnd IH]; simpl; [tauto|].
  intros Hin Hp.
  destruct (p b) eqn:Eb; simpl.
  - assert (b = a) by (apply Hp; auto). subst b.
    f_equal. rewrite <- (length_map (fun x => x)), map_id.
    f_equal. symmetry.
    rewrite <- (filter_ext_in (fun _ => true)).
    + clear. induction l; simpl; congruence.
    + intros x Hx. symmetry. apply negb_true_iff.
      destruct (p x) eqn:Ex; [|reflexivity].
      assert (x = a) by (apply Hp; auto). subst x. contradiction.
  - f_equal. apply IH.
    + destruct Hin as [-> | Hin]; [|exact Hin].
      assert (p a = true) by (apply Hp; auto). congruence.
    + intros x Hx. apply Hp. now right.
Qed.




(** ** applyToOrderedSelectedItemsFromFile *)

Lemma scan_fold fileId (l : list ListItem) :
  forall (lvl : option ListLevel) (acc : list ListItem),
    fold_left
      (fun st it =>
         if is_file it fileId then
           (Some (level it),
            if is_file_level_item it then (snd st ++ [it])%list else snd st)
         else st)
      l (lvl, acc) =
    (match List.rev (filter (fun it => is_file it fileId) l) with
     | [] => lvl
     | it :: _ => Some (level it)
     end,
     (acc ++ filter (fun it => is_file it fileId && is_file_level_item it)%bool
               l)%list).
Proof.
  induction l as [|a l IH]; intros lvl acc; simpl.
  - now rewrite app_nil_r.
  - destruct (is_file a fileId) eqn:Ef; simpl.
    + rewrite IH. f_equal.
      * destruct (List.rev (filter (fun it => is_file it fileId) l)) as [|b r];
          reflexivity.
      * destruct (is_file_level_item a); simpl; [|reflexivity].
        now rewrite <- app_assoc.
    + apply IH.
Qed.

Lemma scan_spec fileId selection :
  scan fileId selection =
  (level_of_file fileId selection, selected_of_file fileId selection).
Proof.
  unfold scan. rewrite forEach_items, <- getSelected_None.
  apply (scan_fold fileId (getSelected None selection) None []).
Qed.

Lemma is_file_eq it fileId : is_file it fileId = true <-> getFileId it = Some fileId.
Proof.
  unfold is_file. destruct (getFileId it) as [f|].
  - rewrite String.eqb_eq. split; congruence.
  - split; discriminate.
Qed.

Lemma is_file_level_item_root it :
  is_file_level_item it = true <-> it <> ListRootItem.
Proof. destruct it; simpl; split; congruence. Qed.

Lemma filter_all {A : Type} (f : A -> bool) (l : list A) :
  (forall x, In x l -> f x = true) -> filter f l = l.
Proof.
  induction l as [|a l IH]; simpl; intros H; [reflexivity|].
  rewrite (H a (or_introl eq_refl)). f_equal. apply IH. auto.
Qed.

(** C3. [applyToOrderedSelectedItemsFromFile] goes through the file order;
    for each file identifier it collects the selected items of that file that
    are not the root item, and calls the callback with the identifier, the
    level and the sorted items exactly when there are such items.  With the
    file order "f2", "f1" and items selected in "f1" only, the callback is
    called once, for "f1". *)
Theorem bridge_calls_per_file :
  forall (sortItems : list ListItem -> bool -> list ListItem) (St : Type)
         (callback : string -> option ListLevel -> list ListItem -> St -> St)
         (reverse : option bool) (fileOrder : list string)
         (selection : SelectionTreeType) (s : St),
    applyToOrderedSelectedItemsFromFile sortItems callback reverse fileOrder
      selection s =
    fold_left (fun s c => callback (fst (fst c)) (snd (fst c)) (snd c) s)
      (bridge_calls sortItems (with_default true reverse) fileOrder selection)
      s /\
    (forall fileId it,
       In it (selected_of_file fileId selection) <->
       In it (getSelected None selection) /\
       getFileId it = Some fileId /\ it <> ListRootItem) /\
    ((forall it, In it (getSelected None selection) ->
                 getFileId it = Some "f1") ->
     getSelected None selection <> [] ->
     bridge_calls sortItems (with_default true reverse) ["f2"; "f1"] selection
     = [("f1", level_of_file "f1" selection,
         sortItems (getSelected None selection)
           (with_default true reverse))]).
Proof.
  intros sortItems St callback reverse fileOrder selection s.
  split; [|split].
  - unfold applyToOrderedSelectedItemsFromFile.
    generalize (with_default true reverse). intros rev_flag.
    revert s. induction fileOrder as [|fileId fileOrder IH]; intros s;
      simpl; [reflexivity|].
    rewrite fold_left_app, scan_spec, IH. f_equal.
    destruct (selected_of_file fileId selection); reflexivity.
  - intros fileId it. unfold selected_of_file.
    rewrite filter_In, andb_true_iff, is_file_eq, is_file_level_item_root.
    tauto.
  - intros Hfile Hsome. unfold bridge_calls. simpl.
    assert (H2 : selected_of_file "f2" selection = []).
    { unfold selected_of_file. apply filter_none. intros it Hin.
      unfold is_file. rewrite (Hfile it Hin). reflexivity. }
    assert (H1 : selected_of_file "f1" selection
                 = getSelected None selection).
    { unfold selected_of_file. apply filter_all. intros it Hin.
      pose proof (Hfile it Hin) as Hf.
      apply andb_true_iff. split.
      - now apply is_file_eq.
      - apply is_file_level_item_root. intros ->. discriminate. }
    rewrite H2, H1. simpl.
    destruct (getSelected None selection); [congruence | reflexivity].
Qed.

Lemma bridge_calls_per_file_witness :
  getSelected None track_selection = [ListTrackItem "f1" 1] /\
  applyToOrderedSelectedItemsFromFile (fun items _ => items) record_call
    (Some false) ["f2"; "f1"] track_selection []
  = [("f1", Some TRACK, [ListTrackItem "f1" 1])].
Proof.
  split; [reflexivity|].
  destruct (bridge_calls_per_file (fun items _ => items) _ record_call
              (Some false) ["f2"; "f1"] track_selection [])
    as [Hrun [_ Hcalls]].
  rewrite Hrun, Hcalls.
  - reflexivity.
  - simpl. intros it [<- | []]. reflexivity.
  - discriminate.
Defined.

(** ** Remarks *)


(** The operations of [size_counts_selected] are calls on the root.  A call
    on a node reached through [getChild] changes that node in place and not
    the ancestors: after [deleteChild(0)] on the node of "f1" the root still
    has [size] 4, with three nodes selected. *)
Lemma deleteChild_below_root_keeps_root_size :
  let this :=
    set_children sample_selection
      (assign (children sample_selection) "f1"
         (deleteChild (IdNum 0) f1_three_tracks)) in
  getChild (IdStr "f1") sample_selection = Some f1_three_tracks /\
  size this = 4 /\ selected_count this = 3.
Proof. repeat split. Qed.

(** * Further properties of Selection.ts *)

(** ** Traversals *)

(** X1. [forEach(callback)] calls the callback on the items that
    [getSelected()] returns, in that order, whatever the callback does with
    its state. *)
Theorem forEach_visits_getSelected :
  forall (St : Type) (callback : ListItem -> St -> St)
         (this : SelectionTreeType) (s : St),
    forEach callback this s =
    fold_left (fun s it => callback it s) (getSelected None this) s.
Proof.
  intros St callback this s. rewrite forEach_items, getSelected_None.
  reflexivity.
Qed.



Lemma map_flat_map {A B C : Type} (f : B -> C) (g : A -> list B) l :
  map f (flat_map g l) = flat_map (fun a => map f (g a)) l.
Proof.
  induction l as [|a l IH]; simpl; [reflexivity|].
  now rewrite map_app, IH.
Qed.

Lemma NoDup_map_filter {A B : Type} (f : A -> B) (p : A -> bool) l :
  NoDup (map f l) -> NoDup (map f (filter p l)).
Proof.
  induction l as [|a l IH]; simpl; intros H; [constructor|].
  inversion H as [|? ? Hnot Hnd]; subst.
  destruct (p a); simpl; [|now apply IH].
  constructor; [|now apply IH].
  intros Hin. apply Hnot. apply in_map_iff in Hin.
  destruct Hin as [b [Hb Hin]]. apply filter_In in Hin.
  apply in_map_iff. exists b. tauto.
Qed.

(** In a maintained and linked tree no two nodes have the same item. *)
Lemma node_items_distinct this :
  maintained this -> linked this -> NoDup (map item (nodes this)).
Proof.
  induction this as [this IH] using tree_induction.
  intros Hm Hl. rewrite Forall_forall in IH.
  destruct (Hm this (nodes_self this)) as [_ Hkeys].
  pose proof (Hl this (nodes_self this)) as Hlinks.
  rewrite Forall_forall in Hlinks.
  assert (Hnodes : nodes this =
            this :: flat_map (fun kv => nodes (snd kv)) (children this))
    by now destruct this.
  rewrite Hnodes. simpl. rewrite map_flat_map.
  assert (Hbelow : forall kv n,
            In kv (children this) -> In n (nodes (snd kv)) ->
            In (item (snd kv)) (ancestors (item n))).
  { intros kv n Hkv Hn.
    exact (proj1 (node_has (snd kv) (maintained_child this kv Hm Hkv)
                    (linked_child this kv Hl Hkv) n Hn)). }
  constructor.
  - intros Hin. apply in_flat_map in Hin. destruct Hin as [kv [Hkv Hin]].
    apply in_map_iff in Hin. destruct Hin as [n [Hitem Hn]].
    destruct (Hlinks kv Hkv) as [id [_ He]].
    pose proof (Hbelow kv n Hkv Hn) as Hanc. rewrite Hitem in Hanc.
    exact (extend_not_ancestor _ _ _ He Hanc).
  - unfold keys_unique in Hkeys.
    assert (Hinner : forall cs,
              NoDup (map fst cs) ->
              (forall kv, In kv cs -> In kv (children this)) ->
              NoDup (flat_map (fun a => map item (nodes (snd a))) cs));
      [|apply Hinner; auto].
    intros cs. induction cs as [|[k c] cs IHcs]; simpl; intros Hnd Hsub;
      [constructor|].
    inversion Hnd as [|? ? Hnot Hnd']; subst.
    apply NoDup_app.
    + apply (IH (k, c)); [now apply Hsub; left | |].
      * apply (maintained_child this (k, c) Hm). apply Hsub. now left.
      * apply (linked_child this (k, c) Hl). apply Hsub. now left.
    + apply IHcs; [exact Hnd'|]. intros kv Hkv. apply Hsub. now right.
    + intros x Hx1 Hx2.
      apply in_map_iff in Hx1. destruct Hx1 as [n1 [Hi1 Hn1]].
      apply in_flat_map in Hx2. destruct Hx2 as [[k2 c2] [Hkv2 Hx2]].
      apply in_map_iff in Hx2. destruct Hx2 as [n2 [Hi2 Hn2]].
      simpl in Hn2.
      assert (Hin1 : In (k, c) (children this)) by (apply Hsub; now left).
      assert (Hin2 : In (k2, c2) (children this))
        by (apply Hsub; now right).
      pose proof (Hbelow (k, c) n1 Hin1 Hn1) as Ha1.
      pose proof (Hbelow (k2, c2) n2 Hin2 Hn2) as Ha2.
      simpl in Ha1, Ha2. rewrite Hi1 in Ha1. rewrite Hi2 in Ha2.
      destruct (Hlinks _ Hin1) as [id1 [Hk1 He1]].
      destruct (Hlinks _ Hin2) as [id2 [Hk2 He2]].
      simpl in Hk1, Hk2, He1, He2.
      assert (id1 = id2) by (eapply ancestors_one_child; eauto).
      subst id2. apply Hnot. rewrite <- Hk1, Hk2.
      apply in_map_iff. exists (k2, c2). auto.
Qed.

(** X3. On a well-formed tree [getSelected()] lists no item twice. *)
Theorem getSelected_no_duplicates :
  forall this : SelectionTreeType,
    well_formed this = true -> NoDup (getSelected None this).
Proof.
  intros this Hwf.
  destruct (well_formed_spec this Hwf) as [_ [Hm Hl]].
  rewrite getSelected_None. unfold selected_items.
  apply NoDup_map_filter. now apply node_items_distinct.
Qed.

Lemma getSelected_no_duplicates_witness :
  well_formed sample_selection = true /\
  NoDup (getSelected None sample_selection).
Proof.
  split; [reflexivity|].
  apply (getSelected_no_duplicates sample_selection). reflexivity.
Defined.

(** ** hasAnyParent and hasAnyChildren on well-formed trees *)

Ltac each_ancestor H :=
  lazymatch type of H with
  | _ \/ _ =>
      let E := fresh "E" in
      destruct H as [E | H];
      [try discriminate E; try (inversion E; subst)
      | each_ancestor H]
  | False => contradiction
  | _ => idtac
  end.

Lemma ancestors_level_leb a it :
  In a (ancestors it) -> level_leb (level a) (level it) = true.
Proof. destruct it; simpl; intros H; each_ancestor H; reflexivity. Qed.

Lemma ancestors_level_ltb a it :
  In a (ancestors it) -> a <> it -> level_ltb (level a) (level it) = true.
Proof.
  destruct it; simpl; intros H; each_ancestor H; intros Hne;
    try reflexivity; congruence.
Qed.

Lemma level_ltb_irrefl l : level_ltb l l = false.
Proof. apply Z.ltb_irrefl. Qed.

Lemma level_gtb_ltb a b : level_gtb a b = level_ltb b a.
Proof. unfold level_gtb, level_ltb. apply Z.gtb_ltb. Qed.

Lemma level_geb_leb a b : level_geb a b = level_leb b a.
Proof. unfold level_geb, level_leb. apply Z.geb_leb. Qed.

Lemma level_geb_ltb a b : level_ltb a b = true -> level_geb a b = false.
Proof.
  unfold level_geb, level_ltb. rewrite Z.geb_leb.
  intros H. apply Z.ltb_lt in H. apply Z.leb_gt. exact H.
Qed.

(** An item gives no identifier for its own level or a level below it. *)
Lemma getIdAtLevel_below it n :
  In it (ancestors n) -> getIdAtLevel it (level n) = None.
Proof. destruct n; simpl; intros H; each_ancestor H; reflexivity. Qed.

Lemma ancestors_antisym a b :
  In a (ancestors b) -> In b (ancestors a) -> a = b.
Proof.
  destruct b; simpl; intros Ha; each_ancestor Ha; simpl; intros Hb;
    try reflexivity; each_ancestor Hb; try discriminate.
Qed.

Lemma ancestors_trans a b c :
  In a (ancestors b) -> In b (ancestors c) -> In a (ancestors c).
Proof.
  intros Ha Hb. destruct c; simpl in Hb; each_ancestor Hb; simpl in Ha;
    each_ancestor Ha; simpl; tauto.
Qed.

(** On the way to an item, the identifier taken at a node is the one taken on
    the way to any item below. *)
Lemma getIdAtLevel_on_path n a it :
  In n (ancestors a) -> In a (ancestors it) ->
  level_eqb (level a) (level n) = false ->
  getIdAtLevel a (level n) = getIdAtLevel it (level n).
Proof.
  intros Hn Ha.
  destruct it; simpl in Ha; each_ancestor Ha; simpl in Hn; each_ancestor Hn;
    simpl; intros Hl; try reflexivity; discriminate.
Qed.

Lemma call_until_true_found {T : Type} (m : T -> bool * T) skip o kv :
  In kv o -> skip (fst kv) = false -> fst (m (snd kv)) = true ->
  fst (call_until_true m skip o) = true.
Proof.
  induction o as [|[k v] o IH]; simpl; [tauto|].
  intros Hin Hskip Hm.
  destruct (call_until_true m skip o) as [r o''] eqn:E. simpl in IH.
  destruct Hin as [<- | Hin].
  - simpl in Hskip, Hm. rewrite Hskip.
    destruct (m v) as [r' v']. simpl in Hm. subst r'. reflexivity.
  - specialize (IH Hin Hskip Hm). subst r.
    destruct (skip k); [reflexivity|].
    destruct (m v) as [r' v']. destruct r'; reflexivity.
Qed.

Lemma hasAnyParent_descend it self this :
  fst (hasAnyParent it self this) =
  if (selected this && level_leb (level (item this)) (level it)
      && (with_default true self
          || level_ltb (level (item this)) (level it)))%bool
  then selected this
  else
    match getIdAtLevel it (level (item this)) with
    | Some id =>
        match get (children this) (key_of id) with
        | Some c => fst (hasAnyParent it (Some (with_default true self)) c)
        | None => false
        end
    | None => false
    end.
Proof.
  rewrite hasAnyParent_unfold. cbv zeta.
  destruct (_ && _ && _)%bool; [reflexivity|].
  destruct (getIdAtLevel _ _) as [id|]; [|reflexivity].
  rewrite call_get. now destruct (get _ _).
Qed.

Lemma hasAnyParent_on_path it this :
  forall self,
    linked this -> In (item this) (ancestors it) ->
    (fst (hasAnyParent it self this) = true <->
     exists a,
       In a (ancestors it) /\ In (item this) (ancestors a) /\
       (with_default true self = true \/ a <> it) /\
       fst (has a this) = true).
Proof.
  induction this as [this IH] using tree_induction.
  intros self Hl Hanc. rewrite Forall_forall in IH.
  rewrite hasAnyParent_descend.
  set (s := with_default true self).
  rewrite (ancestors_level_leb _ _ Hanc), andb_true_r.
  destruct (selected this && (s || level_ltb (level (item this)) (level it)))%bool
    eqn:Econd.
  - apply andb_prop in Econd. destruct Econd as [Hsel Hs]. split.
    + intros _. exists (item this).
      split; [exact Hanc|]. split; [apply ancestors_self|]. split.
      * apply orb_prop in Hs. destruct Hs as [Hs | Hlt]; [now left|].
        right. intros Heq. rewrite Heq, level_ltb_irrefl in Hlt.
        discriminate.
      * rewrite has_here by apply level_eqb_refl. exact Hsel.
    + intros _. exact Hsel.
  - split.
    + destruct (getIdAtLevel it (level (item this))) as [id|] eqn:Eid;
        [|discriminate].
      destruct (get (children this) (key_of id)) as [c|] eqn:Eget;
        [|discriminate].
      intros Hc.
      assert (El : level_eqb (level it) (level (item this)) = false).
      { destruct (level_eqb (level it) (level (item this))) eqn:El;
          [|reflexivity].
        pose proof (ancestors_same_level _ _ Hanc El) as Heq.
        rewrite Heq, (getIdAtLevel_below it it (ancestors_self it)) in Eid.
        discriminate. }
      pose proof (get_In _ _ _ Eget) as Hin.
      pose proof (descend_child it this id c Hl Hanc El Eid Eget) as Hcanc.
      destruct (linked_get this _ _ Hl Eget) as [id0 [Hk He0]].
      apply (IH _ Hin _ (linked_child this _ Hl Hin) Hcanc) in Hc.
      destruct Hc as [a [Ha [Hca [Hsa Hhas]]]].
      assert (Hta : In (item this) (ancestors a))
        by (eapply extend_ancestors; eauto).
      exists a. split; [exact Ha|]. split; [exact Hta|].
      split; [exact Hsa|].
      assert (Ela : level_eqb (level a) (level (item this)) = false).
      { destruct (level_eqb (level a) (level (item this))) eqn:Ela;
          [|reflexivity].
        pose proof (ancestors_same_level _ _ Hta Ela) as Heq.
        rewrite <- Heq in Hca.
        exfalso. exact (extend_not_ancestor _ _ _ He0 Hca). }
      rewrite (has_descend a this id Ela).
      * now rewrite Eget.
      * now rewrite (getIdAtLevel_on_path _ _ _ Hta Ha Ela).
    + intros [a [Ha [Hta [Hsa Hhas]]]].
      destruct (level_eqb (level a) (level (item this))) eqn:Ela.
      * pose proof (ancestors_same_level _ _ Hta Ela) as Heq.
        rewrite (has_here a this Ela) in Hhas.
        rewrite Hhas in Econd. simpl in Econd.
        apply orb_false_iff in Econd. destruct Econd as [Hs Hlt].
        destruct Hsa as [Hs' | Hne]; [congruence|].
        rewrite ancestors_level_ltb in Hlt; [discriminate | exact Hanc|].
        congruence.
      * destruct (ancestors_step a _ Hta Ela) as [id [c' [Hid _]]].
        rewrite (has_descend a this id Ela Hid) in Hhas.
        destruct (get (children this) (key_of id)) as [c|] eqn:Eget;
          [|discriminate].
        rewrite <- (getIdAtLevel_on_path _ _ _ Hta Ha Ela), Hid, Eget.
        pose proof (get_In _ _ _ Eget) as Hin.
        apply (IH _ Hin _ (linked_child this _ Hl Hin)).
        -- apply (ancestors_trans _ a); [|exact Ha].
           eapply descend_child; eauto.
        -- exists a. split; [exact Ha|]. split; [|split; assumption].
           eapply descend_child; eauto.
Qed.



Lemma hasAnyChildren_descend it self this :
  fst (hasAnyChildren it self None this) =
  if (selected this && level_geb (level (item this)) (level it)
      && (with_default true self
          || level_gtb (level (item this)) (level it)))%bool
  then selected this
  else
    match getIdAtLevel it (level (item this)) with
    | Some id =>
        match get (children this) (key_of id) with
        | Some c =>
            fst (hasAnyChildren it (Some (with_default true self)) None c)
        | None => false
        end
    | None =>
        fst (call_until_true
               (hasAnyChildren it (Some (with_default true self)) None)
               (fun key => negb (not_ignored None (IdStr key)))
               (children this))
    end.
Proof.
  rewrite hasAnyChildren_unfold. cbv zeta.
  destruct (_ && _ && _)%bool; [reflexivity|].
  destruct (getIdAtLevel _ _) as [id|].
  - cbn [not_ignored]. rewrite call_get. now destruct (get _ _).
  - now destruct (call_until_true _ _ _).
Qed.

Lemma extend_parent_ancestor p id c : extend p id = Some c -> In p (ancestors c).
Proof.
  intros He. eapply extend_ancestors; [exact He | apply ancestors_self].
Qed.

(** Below the item: the loop over the children finds every selected node. *)
Lemma hasAnyChildren_subtree it this :
  forall self,
    maintained this -> linked this -> In it (ancestors (item this)) ->
    (fst (hasAnyChildren it self None this) = true <->
     exists x,
       In (item this) (ancestors x) /\
       (with_default true self = true \/ x <> it) /\
       fst (has x this) = true).
Proof.
  induction this as [this IH] using tree_induction.
  intros self Hm Hl Hanc. rewrite Forall_forall in IH.
  rewrite hasAnyChildren_descend.
  set (s := with_default true self).
  rewrite level_geb_leb, (ancestors_level_leb _ _ Hanc), andb_true_r.
  rewrite level_gtb_ltb.
  destruct (Hm this (nodes_self this)) as [_ Hkeys].
  assert (Hchild_anc : forall k c,
            In (k, c) (children this) ->
            In (item this) (ancestors (item c)) /\
            exists id, key_of id = k /\
                       extend (item this) id = Some (item c)).
  { intros k c Hin.
    pose proof (Hl this (nodes_self this)) as Hall.
    rewrite Forall_forall in Hall.
    destruct (Hall _ Hin) as [id [Hk He]]. simpl in Hk, He.
    split; [eapply extend_parent_ancestor; eauto | eauto]. }
  destruct (selected this && (s || level_ltb (level it) (level (item this))))%bool
    eqn:Econd.
  - apply andb_prop in Econd. destruct Econd as [Hsel Hs]. split.
    + intros _. exists (item this). split; [apply ancestors_self|]. split.
      * apply orb_prop in Hs. destruct Hs as [Hs | Hlt]; [now left|].
        right. intros Heq. rewrite Heq, level_ltb_irrefl in Hlt.
        discriminate.
      * rewrite has_here by apply level_eqb_refl. exact Hsel.
    + intros _. exact Hsel.
  - rewrite (getIdAtLevel_below it _ Hanc). split.
    + intros Hloop. apply call_until_true_answer in Hloop.
      destruct Hloop as [[k c] [Hin [_ Hc]]]. simpl in Hc.
      destruct (Hchild_anc k c Hin) as [Htc [id0 [Hk He0]]].
      apply (IH _ Hin _ (maintained_child this _ Hm Hin)
               (linked_child this _ Hl Hin)) in Hc;
        [|simpl; eapply ancestors_trans; eauto].
      destruct Hc as [x [Hcx [Hsx Hhas]]]. simpl in Hcx, Hhas.
      assert (Htx : In (item this) (ancestors x))
        by (eapply ancestors_trans; eauto).
      exists x. split; [exact Htx|]. split; [exact Hsx|].
      assert (Elx : level_eqb (level x) (level (item this)) = false).
      { destruct (level_eqb (level x) (level (item this))) eqn:Elx;
          [|reflexivity].
        pose proof (ancestors_same_level _ _ Htx Elx) as Heq.
        rewrite <- Heq in Hcx.
        exfalso. exact (extend_not_ancestor _ _ _ He0 Hcx). }
      destruct (ancestors_step x _ Htx Elx) as [id [c' [Hid [He Hc']]]].
      assert (id = id0) by (eapply ancestors_one_child; eauto). subst id0.
      rewrite (has_descend x this id Elx Hid), Hk.
      now rewrite (In_get _ _ _ Hkeys Hin).
    + intros [x [Htx [Hsx Hhas]]].
      destruct (level_eqb (level x) (level (item this))) eqn:Elx.
      * pose proof (ancestors_same_level _ _ Htx Elx) as Heq.
        rewrite (has_here x this Elx) in Hhas.
        rewrite Hhas in Econd. simpl in Econd.
        apply orb_false_iff in Econd. destruct Econd as [Hs Hlt].
        destruct Hsx as [Hs' | Hne]; [congruence|].
        rewrite ancestors_level_ltb in Hlt; [discriminate | exact Hanc|].
        congruence.
      * destruct (ancestors_step x _ Htx Elx) as [id [c' [Hid _]]].
        rewrite (has_descend x this id Elx Hid) in Hhas.
        destruct (get (children this) (key_of id)) as [c|] eqn:Eget;
          [|discriminate].
        pose proof (get_In _ _ _ Eget) as Hin.
        destruct (Hchild_anc _ c Hin) as [Htc _].
        apply (call_until_true_found _ _ _ (key_of id, c) Hin);
          [reflexivity|].
        simpl.
        apply (IH _ Hin _ (maintained_child this _ Hm Hin)
                 (linked_child this _ Hl Hin)).
        -- simpl. eapply ancestors_trans; eauto.
        -- exists x. split; [|split; assumption].
           simpl. eapply descend_child; eauto.
Qed.

(** Above the item: the way down to its node. *)
Lemma hasAnyChildren_on_path it this :
  forall self,
    maintained this -> linked this -> In (item this) (ancestors it) ->
    (fst (hasAnyChildren it self None this) = true <->
     exists x,
       In it (ancestors x) /\
       (with_default true self = true \/ x <> it) /\
       fst (has x this) = true).
Proof.
  induction this as [this IH] using tree_induction.
  intros self Hm Hl Hanc. rewrite Forall_forall in IH.
  destruct (ListItem_eqb (item this) it) eqn:Eit.
  - apply ListItem_eqb_eq in Eit.
    rewrite (hasAnyChildren_subtree it this self Hm Hl)
      by (rewrite Eit; apply ancestors_self).
    rewrite Eit. reflexivity.
  - apply ListItem_eqb_neq in Eit.
    assert (El : level_eqb (level it) (level (item this)) = false).
    { destruct (level_eqb (level it) (level (item this))) eqn:El;
        [|reflexivity].
      exfalso. apply Eit. now apply ancestors_same_level. }
    destruct (ancestors_step it _ Hanc El) as [id [ci [Hid [He Hci]]]].
    rewrite hasAnyChildren_descend.
    rewrite (level_geb_ltb _ _ (ancestors_level_ltb _ _ Hanc Eit)).
    rewrite andb_false_r. cbn [andb]. rewrite Hid.
    assert (Hdown : forall x,
              In it (ancestors x) ->
              In (item this) (ancestors x) /\
              level_eqb (level x) (level (item this)) = false /\
              getIdAtLevel x (level (item this)) = Some id).
    { intros x Hx.
      assert (Htx : In (item this) (ancestors x))
        by (eapply ancestors_trans; eauto).
      split; [exact Htx|].
      assert (Elx : level_eqb (level x) (level (item this)) = false).
      { destruct (level_eqb (level x) (level (item this))) eqn:Elx;
          [|reflexivity].
        pose proof (ancestors_same_level _ _ Htx Elx) as Heq.
        rewrite <- Heq in Hx.
        exfalso. apply Eit. now apply ancestors_antisym. }
      split; [exact Elx|].
      now rewrite <- (getIdAtLevel_on_path _ _ _ Hanc Hx El). }
    destruct (get (children this) (key_of id)) as [c|] eqn:Eget.
    + pose proof (get_In _ _ _ Eget) as Hin.
      rewrite (IH _ Hin _ (maintained_child this _ Hm Hin)
                 (linked_child this _ Hl Hin))
        by (simpl; eapply descend_child; eauto).
      simpl. split; intros [x [Hx [Hsx Hhas]]]; exists x;
        (split; [exact Hx|]); (split; [exact Hsx|]);
        destruct (Hdown x Hx) as [_ [Elx Hidx]];
        rewrite (has_descend x this id Elx Hidx), Eget in *; exact Hhas.
    + split; [discriminate|]. intros [x [Hx [_ Hhas]]].
      destruct (Hdown x Hx) as [_ [Elx Hidx]].
      rewrite (has_descend x this id Elx Hidx), Eget in Hhas. exact Hhas.
Qed.



(** ** ignoreIds *)

Lemma call_until_true_ext {T : Type} (m1 m2 : T -> bool * T) skip1 skip2 o :
  (forall kv, In kv o -> fst (m1 (snd kv)) = fst (m2 (snd kv))) ->
  (forall k, skip1 k = skip2 k) ->
  fst (call_until_true m1 skip1 o) = fst (call_until_true m2 skip2 o).
Proof.
  intros Hm Hskip. induction o as [|[k v] o IH]; simpl; [reflexivity|].
  assert (IH' : fst (call_until_true m1 skip1 o)
                = fst (call_until_true m2 skip2 o))
    by (apply IH; intros kv Hin; apply Hm; now right).
  pose proof (Hm (k, v) (or_introl eq_refl)) as Hv. simpl in Hv.
  rewrite <- (Hskip k).
  destruct (call_until_true m1 skip1 o) as [r1 o1].
  destruct (call_until_true m2 skip2 o) as [r2 o2].
  simpl in IH'. subst r2.
  destruct (skip1 k); [reflexivity|].
  destruct (m1 v) as [a1 v1]. destruct (m2 v) as [a2 v2].
  simpl in Hv. subst a2. destruct a1; reflexivity.
Qed.

Lemma all_numbers_key ids key :
  all_numbers ids = true -> not_ignored (Some ids) (IdStr key) = true.
Proof.
  unfold all_numbers. intros H. simpl. apply negb_true_iff.
  induction ids as [|id ids IH]; simpl; [reflexivity|].
  simpl in H. apply andb_prop in H. destruct H as [Hid Hids].
  destruct id; [discriminate|]. simpl. now apply IH.
Qed.

Lemma path_not_ignored_spec it ids l id :
  path_not_ignored it ids = true -> getIdAtLevel it l = Some id ->
  not_ignored (Some ids) id = true.
Proof.
  unfold path_not_ignored. rewrite forallb_forall. intros H Hid.
  assert (Hl : In l all_levels) by (destruct l; simpl; tauto).
  specialize (H l Hl). now rewrite Hid in H.
Qed.

(** X6. In the loop of [hasAnyChildren] over the children the keys are the
    strings that [for .. in] yields, and [indexOf] compares with [===]: an
    [ignoreIds] made of numbers excludes no child there.  When it holds none
    of the identifiers on the way to the item either, the answer is the one
    without [ignoreIds]. *)
Theorem numeric_ignoreIds_exclude_no_child :
  forall (it : ListItem) (ids : list Id) (this : SelectionTreeType)
         (self : option bool),
    all_numbers ids = true ->
    path_not_ignored it ids = true ->
    fst (hasAnyChildren it self (Some ids) this) =
    fst (hasAnyChildren it self None this).
Proof.
  intros it ids this. induction this as [this IH] using tree_induction.
  intros self Hnum Hpath. rewrite Forall_forall in IH.
  rewrite !hasAnyChildren_unfold. cbv zeta.
  destruct (_ && _ && _)%bool; [reflexivity|].
  destruct (getIdAtLevel it (level (item this))) as [id|] eqn:Eid.
  - rewrite (path_not_ignored_spec it ids _ id Hpath Eid).
    cbn [not_ignored]. rewrite !call_get.
    destruct (get (children this) (key_of id)) as [c|] eqn:Eget;
      [|reflexivity].
    simpl. exact (IH _ (get_In _ _ _ Eget) _ Hnum Hpath).
  - pose proof (call_until_true_ext
        (hasAnyChildren it (Some (with_default true self)) (Some ids))
        (hasAnyChildren it (Some (with_default true self)) None)
        (fun key => negb (not_ignored (Some ids) (IdStr key)))
        (fun key => negb (not_ignored None (IdStr key)))
        (children this)) as Hext.
    destruct (call_until_true _ _ _) as [r1 o1].
    destruct (call_until_true _ _ _) as [r2 o2].
    simpl in *. apply Hext.
    + intros kv Hin. exact (IH kv Hin _ Hnum Hpath).
    + intros k. pose proof (all_numbers_key ids k Hnum) as Hk.
      simpl in Hk. now rewrite Hk.
Qed.

Lemma numeric_ignoreIds_exclude_no_child_witness :
  all_numbers [IdNum 0; IdNum 1; IdNum 2] = true /\
  path_not_ignored (ListFileItem "f1") [IdNum 0; IdNum 1; IdNum 2] = true /\
  fst (hasAnyChildren (ListFileItem "f1") (Some false)
         (Some [IdNum 0; IdNum 1; IdNum 2]) sample_selection) = true.
Proof.
  split; [reflexivity|]. split; [reflexivity|].
  rewrite (numeric_ignoreIds_exclude_no_child (ListFileItem "f1")
             [IdNum 0; IdNum 1; IdNum 2] sample_selection (Some false)
             eq_refl eq_refl).
  reflexivity.
Defined.

(** ** set and toggle, item by item *)

Lemma SetOrToggle_again it v this this1 :
  SetOrToggle it (Some v) this this1 -> SetOrToggle it (Some v) this1 this1.
Proof.
  induction 1 as [this El Hs | this El Hs | this El Eid
                 | this id child child1 El Eid Eget Hrec IH
                 | this id ci child1 El Eid Eget Eext Hrec IH].
  - now apply sot_same.
  - apply sot_same; simpl; [exact El|].
    simpl in Hs. destruct (selected this), v; simpl; congruence.
  - now apply sot_stop.
  - set (this1 := mkSelectionTree (item this) (selected this)
                    (put (children this) (key_of id) child1)
                    (size this - size child + size child1)).
    pose proof (sot_down it (Some v) this1 id child1 child1 El Eid
                  (get_put_same _ _ _) IH) as H.
    simpl in H. rewrite put_put in H.
    replace (size this - size child + size child1 - size child1
             + size child1)
      with (size this - size child + size child1) in H by lia.
    exact H.
  - set (this1 := mkSelectionTree (item this) (selected this)
                    (put (children this) (key_of id) child1)
                    (size this - 0 + size child1)).
    pose proof (sot_down it (Some v) this1 id child1 child1 El Eid
                  (get_put_same _ _ _) IH) as H.
    simpl in H. rewrite put_put in H.
    replace (size this - 0 + size child1 - size child1 + size child1)
      with (size this - 0 + size child1) in H by lia.
    exact H.
Qed.


Lemma has_after_toggle i this this' :
  SetOrToggle i None this this' ->
  linked this -> In (item this) (ancestors i) ->
  forall j, In (item this) (ancestors j) ->
    fst (has j this') =
    if ListItem_eqb i j then negb (fst (has i this)) else fst (has j this).
Proof.
  induction 1 as [this El Hs | this El Hs | this El Eid
                 | this id child child' El Eid Eget Hrec IH
                 | this id ci child' El Eid Eget Eext Hrec IH];
    intros Hl Hi j Hj.
  - simpl in Hs. destruct (selected this); discriminate.
  - pose proof (ancestors_same_level i _ Hi El) as Hit.
    destruct (ListItem_eqb i j) eqn:Eij.
    + apply ListItem_eqb_eq in Eij. subst j.
      rewrite !has_here by exact El. reflexivity.
    + apply ListItem_eqb_neq in Eij.
      destruct (level_eqb (level j) (level (item this))) eqn:Elj.
      * pose proof (ancestors_same_level j _ Hj Elj). congruence.
      * destruct (ancestors_step j _ Hj Elj) as [idj [c [Hid _]]].
        rewrite (has_descend j _ idj) by (simpl; assumption).
        rewrite (has_descend j this idj) by assumption.
        reflexivity.
  - destruct (ancestors_step i _ Hi El) as [id' [c [Hid _]]]. congruence.
  - destruct (level_eqb (level j) (level (item this))) eqn:Elj.
    + destruct (ListItem_eqb i j) eqn:Eij.
      * apply ListItem_eqb_eq in Eij. subst j. congruence.
      * rewrite !has_here by (simpl; assumption). reflexivity.
    + destruct (ancestors_step j _ Hj Elj) as [idj [cj [Hidj [Hej Hcj]]]].
      rewrite (has_descend j _ idj) by (simpl; assumption).
      rewrite (has_descend j this idj) by assumption.
      rewrite (has_descend i this id El Eid), Eget.
      simpl. rewrite get_put.
      destruct (ancestors_step i _ Hi El) as [idi [c [Hidi [Hei Hci]]]].
      assert (idi = id) by congruence. subst idi.
      destruct (String.eqb (key_of id) (key_of idj)) eqn:Ek.
      * apply String.eqb_eq in Ek.
        assert (idj = id) by (symmetry; eapply extend_key_inj; eauto).
        subst idj. rewrite Eget.
        apply IH.
        -- exact (linked_child this _ Hl (get_In _ _ _ Eget)).
        -- eapply descend_child; eauto.
        -- eapply descend_child; eauto.
      * destruct (ListItem_eqb i j) eqn:Eij; [|reflexivity].
        apply ListItem_eqb_eq in Eij. subst j.
        assert (idj = id) by congruence. subst idj.
        rewrite String.eqb_refl in Ek. discriminate.
  - destruct (level_eqb (level j) (level (item this))) eqn:Elj.
    + destruct (ListItem_eqb i j) eqn:Eij.
      * apply ListItem_eqb_eq in Eij. subst j. congruence.
      * rewrite !has_here by (simpl; assumption). reflexivity.
    + destruct (ancestors_step j _ Hj Elj) as [idj [cj [Hidj [Hej Hcj]]]].
      rewrite (has_descend j _ idj) by (simpl; assumption).
      rewrite (has_descend j this idj) by assumption.
      rewrite (has_descend i this id El Eid), Eget.
      simpl. rewrite get_put.
      destruct (String.eqb (key_of id) (key_of idj)) eqn:Ek.
      * apply String.eqb_eq in Ek.
        assert (idj = id) by (symmetry; eapply extend_key_inj; eauto).
        subst idj. rewrite Eget.
        rewrite (IH (linked_new ci)).
        -- now rewrite !has_new.
        -- cbn [item new_SelectionTreeType]. eapply descend_new; eauto.
        -- cbn [item new_SelectionTreeType]. congruence.
      * destruct (ListItem_eqb i j) eqn:Eij; [|reflexivity].
        apply ListItem_eqb_eq in Eij. subst j.
        assert (idj = id) by congruence. subst idj.
        rewrite String.eqb_refl in Ek. discriminate.
Qed.

Lemma size_after_toggle i this this' :
  SetOrToggle i None this this' ->
  linked this -> In (item this) (ancestors i) ->
  size this' = size this + (if fst (has i this) then -1 else 1).
Proof.
  induction 1 as [this El Hs | this El Hs | this El Eid
                 | this id child child' El Eid Eget Hrec IH
                 | this id ci child' El Eid Eget Eext Hrec IH];
    intros Hl Hi.
  - simpl in Hs. destruct (selected this); discriminate.
  - rewrite (has_here i this El). simpl.
    destruct (selected this); reflexivity.
  - destruct (ancestors_step i _ Hi El) as [id' [c [Hid _]]]. congruence.
  - simpl. rewrite (has_descend i this id El Eid), Eget.
    rewrite IH; [lia | |].
    + exact (linked_child this _ Hl (get_In _ _ _ Eget)).
    + eapply descend_child; eauto.
  - simpl. rewrite (has_descend i this id El Eid), Eget.
    rewrite (IH (linked_new ci)).
    + rewrite has_new. cbn [size new_SelectionTreeType]. lia.
    + cbn [item new_SelectionTreeType]. eapply descend_new; eauto.
Qed.






(** ** clear and deleteChild *)

Lemma shape_unfold this :
  shape this =
  ShapeNode (item this)
    (map (fun kv => (fst kv, shape (snd kv))) (children this)).
Proof. now destruct this. Qed.

(** X11. [clear()] forgets the selection altogether: on two trees with the
    same items and keys it leaves the same tree; in particular a second
    [clear()] changes nothing. *)
Theorem clear_depends_on_shape_only :
  forall a b : SelectionTreeType,
    shape a = shape b -> clear a = clear b /\ clear (clear a) = clear a.
Proof.
  assert (Hshape : forall a b, shape a = shape b -> clear a = clear b).
  { induction a as [a IH] using tree_induction.
    intros b Hs. rewrite Forall_forall in IH.
    rewrite !shape_unfold in Hs. injection Hs as Hitem Hsub.
    rewrite (clear_unfold a), (clear_unfold b), Hitem. f_equal.
    revert Hsub IH. generalize (children b). generalize (children a).
    intros ca. induction ca as [|[k v] ca IHca]; intros [|[k' v'] cb];
      simpl; try discriminate; [reflexivity|].
    intros [= -> Hv Hrest] IH. f_equal.
    - f_equal. apply (IH (k', v)); [now left | exact Hv].
    - apply IHca; [exact Hrest|]. intros kv Hin. apply IH. now right. }
  intros a b Hs. split; [now apply Hshape|].
  apply Hshape. apply clear_shape.
Qed.

Lemma clear_depends_on_shape_only_witness :
  shape sample_selection = shape (clear sample_selection) /\
  clear sample_selection = clear (clear sample_selection).
Proof.
  split; [reflexivity|].
  apply (clear_depends_on_shape_only sample_selection
           (clear sample_selection)).
  reflexivity.
Defined.

(** X12. [deleteChild(fileId)] on the root leaves the selection of the other
    files, and of the root, as it was: [has] of an item that does not belong
    to the file answers as before. *)
Theorem deleteChild_keeps_other_files :
  forall (fileId : string) (this : SelectionTreeType) (x : ListItem),
    level_eqb (level (item this)) ROOT = true ->
    is_file x fileId = false ->
    fst (has x (deleteChild (IdStr fileId) this)) = fst (has x this).
Proof.
  intros fileId this x Hroot Hfile.
  unfold deleteChild. rewrite hasOwnProperty_get.
  destruct (get (children this) (key_of (IdStr fileId))) as [child|];
    [|reflexivity].
  assert (Hlevel : level (item this) = ROOT)
    by (destruct (level (item this)); try discriminate; reflexivity).
  destruct (level_eqb (level x) (level (item this))) eqn:El.
  - rewrite !has_here by (simpl; exact El). reflexivity.
  - rewrite !has_unfold. cbn [item selected children size set_size
                                set_children].
    rewrite El, Hlevel.
    destruct (getIdAtLevel x ROOT) as [id|] eqn:Eid; [|reflexivity].
    rewrite !call_get, get_delete.
    assert (Hne : String.eqb (key_of (IdStr fileId)) (key_of id) = false).
    { destruct x; simpl in Eid; try discriminate; injection Eid as <-;
        simpl; unfold is_file in Hfile; simpl in Hfile;
        now rewrite String.eqb_sym. }
    rewrite Hne. now destruct (get (children this) (key_of id)).
Qed.

Lemma deleteChild_keeps_other_files_witness :
  fst (has (ListFileItem "f2") (deleteChild (IdStr "f1") sample_selection))
  = true.
Proof.
  rewrite (deleteChild_keeps_other_files "f1" sample_selection
             (ListFileItem "f2") eq_refl eq_refl).
  reflexivity.
Defined.

(** X13. [deleteChild(id)] twice in a row is [deleteChild(id)] once, and
    [deleteChild] of an identifier under which there is no child changes
    nothing. *)
Theorem deleteChild_idempotent :
  forall (id : Id) (this : SelectionTreeType),
    deleteChild id (deleteChild id this) = deleteChild id this /\
    (getChild id this = None -> deleteChild id this = this).
Proof.
  intros id this.
  assert (Habsent : forall t, getChild id t = None -> deleteChild id t = t).
  { intros t Hnone. unfold getChild in Hnone. unfold deleteChild.
    now rewrite hasOwnProperty_get, Hnone. }
  split; [|apply Habsent].
  apply Habsent. unfold getChild, deleteChild.
  rewrite hasOwnProperty_get.
  destruct (get (children this) (key_of id)) as [child|] eqn:Eget.
  - simpl. now rewrite get_delete, String.eqb_refl.
  - exact Eget.
Qed.

Lemma deleteChild_idempotent_witness :
  getChild (IdStr "f3") sample_selection = None /\
  deleteChild (IdStr "f3") sample_selection = sample_selection.
Proof.
  split; [reflexivity|].
  exact (proj2 (deleteChild_idempotent (IdStr "f3") sample_selection)
           eq_refl).
Defined.


(** ** getChild *)

Lemma file_ancestor x fileId :
  getFileId x = Some fileId <-> In (ListFileItem fileId) (ancestors x).
Proof.
  destruct x; simpl; split; try discriminate; intros H;
    try (injection H as ->; tauto);
    each_ancestor H; reflexivity.
Qed.

Lemma root_child_item this fileId c :
  linked this -> item this = ListRootItem ->
  get (children this) fileId = Some c -> item c = ListFileItem fileId.
Proof.
  intros Hl Hr Hget.
  destruct (linked_get this _ _ Hl Hget) as [id [Hk He]].
  rewrite Hr in He. destruct id as [s|n]; simpl in He; [|discriminate].
  simpl in Hk. congruence.
Qed.



(** * Properties of stores.ts *)

(** ** updateGPXData *)

Section StatisticsFacts.

Variable GPXStatistics : Type.
Variable new_GPXStatistics : GPXStatistics.
Variable mergeWith : GPXStatistics -> GPXStatistics -> GPXStatistics.
Variable FileStatistics : Type.
Variable getStatistics : string -> option FileStatistics.
Variable getStatisticsFor : FileStatistics -> ListItem -> GPXStatistics.
Variable sortItems : list ListItem -> bool -> list ListItem.

Lemma merge_items_later stats items :
  forall statistics,
    fst (fold_left
           (fun st it =>
              if (negb (is_waypoint_item it) || snd st)%bool then
                (mergeWith (fst st) (getStatisticsFor stats it), false)
              else st)
           items (statistics, false)) =
    fold_left mergeWith
      (map (getStatisticsFor stats)
         (filter (fun x => negb (is_waypoint_item x)) items))
      statistics.
Proof.
  induction items as [|it items IH]; intros statistics; simpl;
    [reflexivity|].
  rewrite orb_false_r. destruct (negb (is_waypoint_item it)); simpl.
  - apply IH.
  - apply IH.
Qed.

Lemma merge_items_counted stats items statistics :
  fst (merge_items GPXStatistics mergeWith FileStatistics getStatisticsFor
         stats items statistics) =
  fold_left mergeWith (map (getStatisticsFor stats) (counted_items items))
    statistics.
Proof.
  unfold merge_items. destruct items as [|it items]; [reflexivity|].
  simpl. rewrite orb_true_r. apply merge_items_later.
Qed.

(** X16. [updateGPXData()] merges, file after file in the file order and
    item after item in sorted order, the statistics of the selected items of
    the files that have statistics: of the first item of a file always, of a
    later item only when it is no waypoint item ([ListWaypointItem] or
    [ListWaypointsItem]). *)
Theorem updateGPXData_counts_first_and_tracks :
  forall (fileOrder : list string) (selection : SelectionTreeType),
    updateGPXData GPXStatistics new_GPXStatistics mergeWith FileStatistics
      getStatistics getStatisticsFor sortItems fileOrder selection =
    fold_left mergeWith
      (flat_map
         (fun fileId =>
            match getStatistics fileId with
            | Some stats =>
                match selected_of_file fileId selection with
                | [] => []
                | items =>
                    map (getStatisticsFor stats)
                      (counted_items (sortItems items false))
                end
            | None => []
            end)
         fileOrder)
      new_GPXStatistics.
Proof.
  intros fileOrder selection.
  unfold updateGPXData, applyToOrderedSelectedItemsFromFile. simpl.
  generalize new_GPXStatistics.
  induction fileOrder as [|fileId fileOrder IH]; intros s; simpl;
    [reflexivity|].
  rewrite fold_left_app, IH. f_equal.
  rewrite scan_spec.
  destruct (selected_of_file fileId selection) as [|it items].
  - simpl. now destruct (getStatistics fileId).
  - cbn [List.length Nat.ltb Nat.leb].
    destruct (getStatistics fileId) as [stats|]; [|reflexivity].
    apply merge_items_counted.
Qed.

End StatisticsFacts.

(** ** loadFile *)

Lemma split_nonempty sep s : split sep s <> [].
Proof.
  destruct s as [|c s]; simpl; [discriminate|].
  destruct (Ascii.eqb c sep); [discriminate|].
  destruct (split sep s); discriminate.
Qed.

Lemma join_cons c sep piece pieces :
  join sep (String c piece :: pieces) = String c (join sep (piece :: pieces)).
Proof. destruct pieces; reflexivity. Qed.

(** [s.split(sep).join(sep)] is [s]. *)
Lemma join_split sep s : join (String sep EmptyString) (split sep s) = s.
Proof.
  induction s as [|c s IH]; [reflexivity|].
  simpl split. destruct (Ascii.eqb c sep) eqn:Ec.
  - apply Ascii.eqb_eq in Ec. subst c.
    destruct (split sep s) as [|p ps] eqn:Es;
      [now apply split_nonempty in Es|].
    change (join (String sep EmptyString) (EmptyString :: p :: ps))
      with (String sep (join (String sep EmptyString) (p :: ps))).
    now rewrite IH.
  - destruct (split sep s) as [|p ps] eqn:Es;
      [now apply split_nonempty in Es|].
    rewrite join_cons. now rewrite IH.
Qed.

Lemma split_no_separator sep s : occurs sep s = false -> split sep s = [s].
Proof.
  induction s as [|c s IH]; [reflexivity|].
  simpl. intros H. apply orb_false_iff in H. destruct H as [Hc Hs].
  rewrite Hc, (IH Hs). reflexivity.
Qed.

Lemma split_app sep a b :
  split sep (a ++ String sep b) = (split sep a ++ split sep b)%list.
Proof.
  induction a as [|c a IH]; simpl.
  - now rewrite Ascii.eqb_refl.
  - destruct (Ascii.eqb c sep); rewrite IH; [reflexivity|].
    destruct (split sep a) as [|p ps] eqn:Es;
      [now apply split_nonempty in Es|].
    reflexivity.
Qed.

Lemma name_without_extension_stem stem ext :
  occurs "." ext = false ->
  name_without_extension (stem ++ String "." ext) = stem.
Proof.
  intros Hext. unfold name_without_extension.
  rewrite split_app, (split_no_separator _ _ Hext), removelast_last.
  apply (join_split "." stem).
Qed.



(** ** The subscriber of the store selection *)

Lemma map_delete_head fileId rest :
  ~ In fileId rest -> map_delete fileId (fileId :: rest) = rest.
Proof.
  intros Hnot. unfold map_delete. simpl. rewrite String.eqb_refl. simpl.
  apply filter_all. intros k Hk. apply negb_true_iff.
  apply String.eqb_neq. intros ->. contradiction.
Qed.

Lemma unsubscribe_all_distinct unsubscribes :
  forall events,
    NoDup unsubscribes ->
    unsubscribe_all (List.length unsubscribes) unsubscribes events =
    Some ([], (events ++ map Unsubscribed unsubscribes)%list).
Proof.
  induction unsubscribes as [|fileId rest IH]; intros events Hnd.
  - simpl. now rewrite app_nil_r.
  - inversion Hnd as [|? ? Hnot Hnd']; subst.
    cbn [List.length unsubscribe_all].
    rewrite (map_delete_head _ _ Hnot), (IH _ Hnd').
    simpl. now rewrite <- app_assoc.
Qed.

Lemma existsb_eqb_In fileId keys :
  existsb (String.eqb fileId) keys = true <-> In fileId keys.
Proof.
  rewrite existsb_exists. split.
  - intros [k [Hk He]]. apply String.eqb_eq in He. now subst.
  - intros H. exists fileId. split; [exact H | apply String.eqb_refl].
Qed.

Lemma subscribe_fold fileObservers items :
  forall keys events,
    NoDup keys ->
    exists added,
      fold_left (fun st it => subscribe_item fileObservers it st) items
        (keys, events) =
      ((keys ++ added)%list, (events ++ map Subscribed added)%list) /\
      NoDup (keys ++ added) /\
      (forall f,
         In f added <->
         ~ In f keys /\
         (exists it, In it items /\ getFileId it = Some f) /\
         map_get fileObservers f <> None).
Proof.
  induction items as [|it items IH]; intros keys events Hnd.
  - exists []. simpl. rewrite !app_nil_r. split; [reflexivity|].
    split; [exact Hnd|]. intros f. split; [tauto|].
    intros [_ [[x [[] _]] _]].
  - cbn [fold_left]. unfold subscribe_item at 2. cbn [fst snd].
    assert (Hskip : forall g,
              getFileId it = g ->
              (forall f, g = Some f ->
                 In f keys \/ map_get fileObservers f = None) ->
              exists added,
                fold_left (fun st it => subscribe_item fileObservers it st)
                  items (keys, events) =
                ((keys ++ added)%list,
                 (events ++ map Subscribed added)%list) /\
                NoDup (keys ++ added) /\
                (forall f,
                   In f added <->
                   ~ In f keys /\
                   (exists x, In x (it :: items) /\ getFileId x = Some f) /\
                   map_get fileObservers f <> None)).
    { intros g Hg Hout.
      destruct (IH keys events Hnd) as [added [Hfold [Hnd' Hin]]].
      exists added. split; [exact Hfold|]. split; [exact Hnd'|].
      intros f. rewrite Hin. split.
      - intros [Hk [[x [Hx Hf]] Ho]]. split; [exact Hk|].
        split; [|exact Ho]. exists x. split; [now right | exact Hf].
      - intros [Hk [[x [[<- | Hx] Hf]] Ho]].
        + destruct (Hout f (eq_trans (eq_sym Hg) Hf)); tauto.
        + split; [exact Hk|]. split; [|exact Ho]. eauto. }
    destruct (getFileId it) as [g|] eqn:Eg.
    + destruct (existsb (String.eqb g) keys) eqn:Ek.
      * apply (Hskip (Some g) eq_refl). intros f [= <-].
        left. now apply existsb_eqb_In.
      * assert (Hnot : ~ In g keys).
        { intros Hin. apply existsb_eqb_In in Hin. congruence. }
        destruct (map_get fileObservers g) as [store|] eqn:Eo.
        -- assert (Hnd1 : NoDup (keys ++ [g])).
           { apply NoDup_app; [exact Hnd | repeat constructor; intros [] |].
             intros a Ha [<- | []]. contradiction. }
           destruct (IH (keys ++ [g])%list (events ++ [Subscribed g])%list
                       Hnd1) as [added [Hfold [Hnd' Hin]]].
           exists (g :: added). rewrite Hfold.
           rewrite <- !app_assoc. simpl.
           split; [reflexivity|].
           split; [now rewrite <- app_assoc in Hnd'|].
           intros f. simpl. rewrite Hin. rewrite in_app_iff. simpl. split.
           ++ intros [<- | [Hk [[x [Hx Hf]] Ho]]].
              ** split; [exact Hnot|]. split; [|congruence].
                 exists it. auto.
              ** split; [tauto|]. split; [|exact Ho]. eauto.
           ++ intros [Hk [[x [[<- | Hx] Hf]] Ho]].
              ** left. congruence.
              ** destruct (string_dec g f) as [-> | Hne]; [now left|].
                 right. split; [|split; [eauto | exact Ho]].
                 intros [H | [H | []]]; [contradiction | congruence].
        -- apply (Hskip (Some g) eq_refl). intros f [= <-]. now right.
    + apply (Hskip None eq_refl). intros f Hf. discriminate.
Qed.

(** X18. When the selection changes, the subscriber of the store calls the
    [unsubscribe] of every file it had subscribed to, once each, and then
    subscribes once to each file that has a selected item and an observer in
    the store: afterwards [unsubscribes] holds exactly these files, none
    twice. *)
Theorem subscriptions_follow_selection :
  forall (fileObservers : FileObservers) (selection : SelectionTreeType)
         (unsubscribes : list string),
    distinct unsubscribes = true ->
    exists keys,
      refresh_subscriptions fileObservers selection unsubscribes =
      Some (keys,
            (map Unsubscribed unsubscribes ++ map Subscribed keys)%list) /\
      NoDup keys /\
      (forall f,
         In f keys <->
         (exists it, In it (getSelected None selection) /\
                     getFileId it = Some f) /\
         map_get fileObservers f <> None).
Proof.
  intros fileObservers selection unsubscribes Hd.
  unfold refresh_subscriptions.
  rewrite (unsubscribe_all_distinct _ [] (distinct_NoDup _ Hd)).
  cbn [bind app]. rewrite forEach_items, <- getSelected_None.
  destruct (subscribe_fold fileObservers (getSelected None selection) []
              (map Unsubscribed unsubscribes) (NoDup_nil _))
    as [keys [Hfold [Hnd Hin]]].
  exists keys. change ([] ++ map Unsubscribed unsubscribes)%list
    with (map Unsubscribed unsubscribes).
  rewrite Hfold. simpl in *.
  split; [reflexivity|]. split; [exact Hnd|].
  intros f. rewrite Hin. tauto.
Qed.

Lemma subscriptions_follow_selection_witness :
  distinct ["f2"; "f3"] = true /\
  exists keys,
    refresh_subscriptions two_files sample_selection ["f2"; "f3"] =
    Some (keys,
          ([Unsubscribed "f2"; Unsubscribed "f3"] ++ map Subscribed keys)%list)
    /\ NoDup keys /\ In "f1" keys /\ ~ In "f3" keys.
Proof.
  split; [reflexivity|].
  destruct (subscriptions_follow_selection two_files sample_selection
              ["f2"; "f3"] eq_refl) as [keys [Hrun [Hnd Hin]]].
  exists keys. split; [exact Hrun|]. split; [exact Hnd|]. split.
  - apply Hin. split; [|discriminate].
    exists (ListTrackItem "f1" 0). split; [simpl; tauto | reflexivity].
  - intros H. apply Hin in H. destruct H as [_ H]. now apply H.
Defined.

(** ** toggleSelectionVisibility *)

Section LayerFacts.

Variable GPXLayer : Type.
Variable toggleVisibility : GPXLayer -> GPXLayer.

Lemma set_add_In x files o :
  In o (set_add x files) <-> o = x \/ In o files.
Proof.
  unfold set_add.
  destruct (existsb _ files) eqn:E.
  - split; [tauto|]. intros [-> | H]; [|exact H].
    apply existsb_exists in E. destruct E as [y [Hy He]].
    destruct y as [a|], x as [b|]; try discriminate; [|exact Hy].
    apply String.eqb_eq in He. now subst.
  - rewrite in_app_iff. simpl. intuition.
Qed.

Lemma set_add_NoDup x files : NoDup files -> NoDup (set_add x files).
Proof.
  intros Hnd. unfold set_add.
  destruct (existsb _ files) eqn:E; [exact Hnd|].
  apply NoDup_app; [exact Hnd | repeat constructor; intros [] |].
  intros a Ha [Hx | []]. subst a.
  assert (existsb
            (fun f =>
               match f, x with
               | Some a0, Some b => String.eqb a0 b
               | None, None => true
               | _, _ => false
               end) files = true); [|congruence].
  apply existsb_exists. exists x. split; [exact Ha|].
  destruct x; [apply String.eqb_refl | reflexivity].
Qed.

Lemma files_fold items :
  forall files,
    NoDup files ->
    NoDup (fold_left (fun files it => set_add (getFileId it) files) items
             files) /\
    (forall o,
       In o (fold_left (fun files it => set_add (getFileId it) files) items
               files) <->
       In o files \/ exists it, In it items /\ getFileId it = o).
Proof.
  induction items as [|it items IH]; intros files Hnd; simpl.
  - split; [exact Hnd|]. intros o. split; [tauto|].
    intros [H | [x [[] _]]]. exact H.
  - destruct (IH _ (set_add_NoDup (getFileId it) files Hnd)) as [Hnd' Hin].
    split; [exact Hnd'|]. intros o. rewrite Hin, set_add_In. split.
    + intros [[-> | H] | [x [Hx Hf]]]; [right | now left | right]; eauto.
    + intros [H | [x [[<- | Hx] Hf]]]; [tauto | left; now left | right].
      eauto.
Qed.

Lemma mem_file_In fileId files :
  mem_file fileId files = true <-> In (Some fileId) files.
Proof.
  unfold mem_file. rewrite existsb_exists. split.
  - intros [[a|] [Ha He]]; [|discriminate].
    apply String.eqb_eq in He. now subst.
  - intros H. exists (Some fileId). split; [exact H | apply String.eqb_refl].
Qed.

Lemma toggle_one (layers : list (string * GPXLayer)) f :
  NoDup (map fst layers) ->
  match get layers f with
  | Some layer => assign layers f (toggleVisibility layer)
  | None => layers
  end =
  map (fun kv =>
         if String.eqb (fst kv) f then (fst kv, toggleVisibility (snd kv))
         else kv) layers.
Proof.
  induction layers as [|[k v] layers IH]; simpl; intros Hnd; [reflexivity|].
  inversion Hnd as [|? ? Hnot Hnd']; subst.
  destruct (String.eqb k f) eqn:E.
  - f_equal.
    apply String.eqb_eq in E. subst k.
    rewrite <- (map_id layers) at 1. apply map_ext_in.
    intros [k' v'] Hin. simpl.
    destruct (String.eqb k' f) eqn:E'; [|reflexivity].
    apply String.eqb_eq in E'. subst k'. exfalso. apply Hnot.
    apply in_map_iff. exists (f, v'). auto.
  - rewrite <- (IH Hnd'). now destruct (get layers f).
Qed.

Lemma toggle_fold files :
  forall layers : list (string * GPXLayer),
    NoDup files -> NoDup (map fst layers) ->
    fold_left
      (fun layers fileId =>
         match fileId with
         | Some f =>
             match get layers f with
             | Some layer => assign layers f (toggleVisibility layer)
             | None => layers
             end
         | None => layers
         end)
      files layers =
    map (fun kv =>
           if mem_file (fst kv) files
           then (fst kv, toggleVisibility (snd kv)) else kv) layers.
Proof.
  induction files as [|o files IH]; intros layers Hfiles Hkeys; simpl.
  - rewrite <- (map_id layers) at 1. reflexivity.
  - inversion Hfiles as [|? ? Hnot Hfiles']; subst.
    destruct o as [f|].
    + rewrite (toggle_one layers f Hkeys).
      rewrite IH; [|exact Hfiles'|].
      * rewrite map_map. apply map_ext. intros [k v]. simpl.
        rewrite (String.eqb_sym f k).
        destruct (String.eqb k f) eqn:E; simpl; [|reflexivity].
        apply String.eqb_eq in E. subst k.
        destruct (mem_file f files) eqn:Em; [|reflexivity].
        apply mem_file_In in Em. contradiction.
      * rewrite map_map.
        rewrite (map_ext _ fst); [exact Hkeys|].
        intros [k v]. simpl. now destruct (String.eqb k f).
    + now apply IH.
Qed.

(** X19. [toggleSelectionVisibility()] toggles the layer of every file that
    has a selected item, once, however many items of the file are selected,
    and leaves the other layers as they are. *)
Theorem toggleSelectionVisibility_once_per_file :
  forall (gpxLayers : list (string * GPXLayer))
         (selection : SelectionTreeType),
    distinct (map fst gpxLayers) = true ->
    toggleSelectionVisibility GPXLayer toggleVisibility gpxLayers selection =
    map (fun kv =>
           if file_selected (fst kv) selection
           then (fst kv, toggleVisibility (snd kv)) else kv) gpxLayers.
Proof.
  intros gpxLayers selection Hd. unfold toggleSelectionVisibility.
  rewrite forEach_items, <- getSelected_None.
  destruct (files_fold (getSelected None selection) [] (NoDup_nil _))
    as [Hnd Hin].
  rewrite (toggle_fold _ gpxLayers Hnd (distinct_NoDup _ Hd)).
  apply map_ext. intros [k v]. simpl.
  assert (Hsame : mem_file k
                    (fold_left
                       (fun files it => set_add (getFileId it) files)
                       (getSelected None selection) [])
                  = file_selected k selection).
  { apply eq_true_iff_eq. rewrite mem_file_In, Hin.
    unfold file_selected. rewrite existsb_exists. split.
    - intros [[] | [it [Hit Hf]]]. exists it. split; [exact Hit|].
      now apply is_file_eq.
    - intros [it [Hit Hf]]. right. exists it. split; [exact Hit|].
      now apply is_file_eq. }
  now rewrite Hsame.
Qed.

End LayerFacts.

Lemma toggleSelectionVisibility_once_per_file_witness :
  distinct (map fst [("f1", true); ("f3", true)]) = true /\
  toggleSelectionVisibility bool negb [("f1", true); ("f3", true)]
    sample_selection
  = [("f1", false); ("f3", true)].
Proof.
  split; [reflexivity|].
  rewrite (toggleSelectionVisibility_once_per_file bool negb
             [("f1", true); ("f3", true)] sample_selection eq_refl).
  reflexivity.
Defined.
